(** * Board validation and move enumeration of the block-mover server

    A shallow embedding of the game-logic helpers of the 10x10 block
    mover (isValidCoord, findBlocks, countConnectedBlocks, validateBoard,
    findAllValidMoves) and the properties of the validation and
    move-enumeration engine. *)

From stdpp Require Import base option list sets gmap strings pretty relations sorting.
From Stdlib Require Import ZArith Lia Ascii Wf_nat.

Local Open Scope Z_scope.
Local Set Warnings "-register-all,-clear-no-such-hyp".

(** ** JavaScript values as they arrive in a parsed JSON body *)

(** The helpers observe a value only through [Array.isArray], [.length],
    indexing and the strict comparisons [=== 1] and [=== 0]; numbers that
    are not integers and objects behave there like [JNull]. *)
Inductive jsval : Type :=
  | JUndefined
  | JNull
  | JBool (b : bool)
  | JNum (n : Z)
  | JStr (s : string)
  | JArr (elems : list jsval).

(** [Array.isArray(v)] *)
Definition isArray (v : jsval) : bool :=
  match v with JArr _ => true | _ => false end.

(** [v.length] of an array (only used behind [isArray]) *)
Definition jsLength (v : jsval) : nat :=
  match v with JArr l => length l | _ => 0%nat end.

(** [a[i]]: an index outside the array reads [undefined].  Indexing
    [undefined] itself raises in JavaScript; on a board that passed the
    shape test of [validateBoard] every index used below is in range. *)
Definition index (a : jsval) (i : Z) : jsval :=
  match a with
  | JArr l => if 0 <=? i then default JUndefined (l !! Z.to_nat i) else JUndefined
  | _ => JUndefined
  end.

(** [v === 1] and [v === 0] *)
Definition isOne (v : jsval) : bool :=
  match v with JNum 1 => true | _ => false end.
Definition isZero (v : jsval) : bool :=
  match v with JNum 0 => true | _ => false end.

(** ** Game constants *)

Definition BOARD_SIZE : Z := 10.
Definition BLOCK_COUNT : nat := 10.

(** A coordinate object [{ r, c }]. *)
Definition cell : Type := Z * Z.

(** [board[r][c]] *)
Definition cellAt (board : jsval) (n : cell) : jsval :=
  index (index board n.1) n.2.

(** ** Scanning the board *)

Definition isValidCoord (n : cell) : bool :=
  (0 <=? n.1) && (n.1 <? BOARD_SIZE) && (0 <=? n.2) && (n.2 <? BOARD_SIZE).

(** [0, 1, ..., BOARD_SIZE - 1], the range of both [for] loops *)
Definition indices : list Z := seqZ 0 BOARD_SIZE.

Definition findBlocks (board : jsval) : list cell :=
  r ← indices;
  c ← indices;
  if isOne (cellAt board (r, c)) then [(r, c)] else [].

(** ** Coordinate keys *)

(** The template literal [`${r},${c}`]: both numbers in decimal, a minus
    sign before a negative one. *)
Definition key (n : cell) : string := pretty n.1 +:+ "," +:+ pretty n.2.

(** [s.split(',')] *)
Fixpoint splitComma (s : string) : list string :=
  match s with
  | EmptyString => [EmptyString]
  | String a s' =>
      if Ascii.eqb a "," then EmptyString :: splitComma s'
      else match splitComma s' with
           | hd :: tl => String a hd :: tl
           | [] => [String a EmptyString]
           end
  end.

Definition digitValue (a : ascii) : option Z :=
  let n := Z.of_N (N_of_ascii a) in
  if (48 <=? n) && (n <=? 57) then Some (n - 48) else None.

(** The leading digits that [parseInt] reads, most significant first. *)
Fixpoint parseDigits (s : string) (acc : Z) : Z :=
  match s with
  | EmptyString => acc
  | String a s' =>
      match digitValue a with
      | Some d => parseDigits s' (10 * acc + d)
      | None => acc
      end
  end.

(** [parseInt(s)] on a string that starts with a digit or with a minus
    sign and a digit, as every part of a key does (elsewhere the source
    gets [NaN], which has no counterpart here). *)
Definition parseInt (s : string) : Z :=
  match s with
  | String "-" s' => - parseDigits s' 0
  | _ => parseDigits s 0
  end.

(** [{ r: parseInt(s.split(',')[0]), c: parseInt(s.split(',')[1]) }] *)
Definition parseKey (s : string) : cell :=
  let parts := splitComma s in
  (parseInt (default EmptyString (parts !! 0%nat)),
   parseInt (default EmptyString (parts !! 1%nat))).

(** ** Traversal and validation *)

(** The four neighbours, in the order of the source's array literal. *)
Definition neighbors (n : cell) : list cell :=
  [(n.1 - 1, n.2); (n.1 + 1, n.2); (n.1, n.2 - 1); (n.1, n.2 + 1)].

(** One pass of the inner [for] loop of the traversal: the state is the
    queue and the visited set of keys. *)
Definition visit (board : jsval) (st : list cell * gset string) (nb : cell)
    : list cell * gset string :=
  if isValidCoord nb && isOne (cellAt board nb) && negb (bool_decide (key nb ∈ st.2))
  then (st.1 ++ [nb], {[key nb]} ∪ st.2)
  else st.

(** The [while] loop; [None] when the fuel does not suffice. *)
Fixpoint bfsLoop (fuel : nat) (board : jsval)
    (queue : list cell) (visited : gset string) (count : nat) : option nat :=
  match queue with
  | [] => Some count
  | n :: rest =>
      match fuel with
      | O => None
      | S fuel' =>
          let st := foldl (visit board) (rest, visited) (neighbors n) in
          bfsLoop fuel' board st.1 st.2 (S count)
      end
  end.

Definition countConnectedBlocksFuel (fuel : nat) (board : jsval)
    (startNode : option cell) : option nat :=
  match startNode with
  | None => Some 0%nat
  | Some s => bfsLoop fuel board [s] {[key s]} 0
  end.

(** Every in-bounds cell is dequeued at most once, and so is the start
    node: [BOARD_SIZE * BOARD_SIZE + 1] rounds always suffice (lemma
    [countConnectedBlocksFuel_enough]). *)
Definition bfsFuel : nat := S (Z.to_nat (BOARD_SIZE * BOARD_SIZE)).

Definition countConnectedBlocks (board : jsval) (startNode : option cell) : nat :=
  default 0%nat (countConnectedBlocksFuel bfsFuel board startNode).

(** The three messages of [validateBoard]. *)
Definition MalformedShape : string := "Board must be a 10x10 array.".
Definition WrongBlockCount : string := "Board must have exactly 10 blocks.".
Definition Disconnected : string := "All blocks must form a single, continuous shape.".

(** The shape test: an array of [BOARD_SIZE] arrays of length [BOARD_SIZE]. *)
Definition shapeOk (board : jsval) : bool :=
  isArray board
  && bool_decide (jsLength board = Z.to_nat BOARD_SIZE)
  && negb (existsb (λ r, negb (isArray r) || negb (bool_decide (jsLength r = Z.to_nat BOARD_SIZE)))
             (match board with JArr rows => rows | _ => [] end)).

(** [None] is the source's [null]: the board is valid. *)
Definition validateBoard (board : jsval) : option string :=
  if negb (shapeOk board) then Some MalformedShape
  else
    let blocks := findBlocks board in
    if negb (bool_decide (length blocks = BLOCK_COUNT)) then Some WrongBlockCount
    else if negb (bool_decide (countConnectedBlocks board (head blocks) = BLOCK_COUNT))
    then Some Disconnected
    else None.

(** [a[i] = v] on an array: in range the slot is overwritten, past the
    end the array grows (the gap reads [undefined]). *)
Definition arraySet (a : jsval) (i : Z) (v : jsval) : jsval :=
  match a with
  | JArr l =>
      if 0 <=? i then
        if bool_decide (Z.to_nat i < length l)%nat then JArr (<[Z.to_nat i := v]> l)
        else JArr (l ++ replicate (Z.to_nat i - length l) JUndefined ++ [v])
      else a
  | _ => a
  end.

(** [board.map(row => [...row])] followed by [tempBoard[r][c] = v]: the
    value of the working copy. *)
Definition boardSet (board : jsval) (n : cell) (v : jsval) : jsval :=
  arraySet board n.1 (arraySet (index board n.1) n.2 v).

Record move : Type := Move { from : cell; to : list cell }.

(** [validDestinations.add(key)] on a JavaScript [Set] of strings, which
    keeps insertion order. *)
Definition setAdd (s : list string) (k : string) : list string :=
  if bool_decide (k ∈ s) then s else s ++ [k].

(** The inner [for] loop over the neighbours of one remaining block:
    those in bounds and empty on the working copy join the destinations. *)
Definition addCandidates (tempBoard : jsval) (dests : list string)
    (candidates : list cell) : list string :=
  foldl (λ dests neighbor,
           if isValidCoord neighbor && isZero (cellAt tempBoard neighbor)
           then setAdd dests (key neighbor) else dests)
        dests candidates.

Definition addNeighbors (tempBoard : jsval) (dests : list string) (otherBlock : cell)
    : list string :=
  addCandidates tempBoard dests (neighbors otherBlock).

Definition validDestinations (tempBoard : jsval) (remainingBlocks : list cell)
    : list string :=
  foldl (addNeighbors tempBoard) [] remainingBlocks.

(** The loop body after the working copy is made and [block] cleared on
    it: the move pushed for [block], if any. *)
Definition movesOn (tempBoard : jsval) (block : cell) : option move :=
  let remainingBlocks := findBlocks tempBoard in
  if bool_decide (countConnectedBlocks tempBoard (head remainingBlocks)
                  = length remainingBlocks)
  then
    let dests := validDestinations tempBoard remainingBlocks in
    if bool_decide (0 < length dests)%nat
    then Some {| from := block; to := parseKey <$> dests |}
    else None
  else None.

(** The body of the loop over [blocks], on values. *)
Definition movesFrom (board : jsval) (block : cell) : option move :=
  movesOn (boardSet board block (JNum 0)) block.

Definition findAllValidMoves (board : jsval) : list move :=
  omap (movesFrom board) (findBlocks board).

(** ** The store: arrays as objects *)

(** A board is an array object whose elements refer to row objects; the
    working copy of [findAllValidMoves] is built from fresh objects and
    then written to. *)
Definition loc : Type := positive.

(** Values in the store: an array is held by reference. *)
Inductive val : Type :=
  | VUndefined
  | VNull
  | VBool (b : bool)
  | VNum (n : Z)
  | VStr (s : string)
  | VRef (l : loc).

(** The array objects of the store, by location. *)
Abbreviation heap := (gmap loc (list val)).

(** The elements of the array that [v] refers to. *)
Definition readArray (h : heap) (v : val) : option (list val) :=
  match v with VRef l => h !! l | _ => None end.

(** A cell as the game logic sees it: only [=== 1] and [=== 0] are asked
    of it, so an array in a cell shows as an array without its elements. *)
Definition shallow (v : val) : jsval :=
  match v with
  | VUndefined => JUndefined
  | VNull => JNull
  | VBool b => JBool b
  | VNum n => JNum n
  | VStr s => JStr s
  | VRef _ => JArr []
  end.

(** A row as the game logic sees it. *)
Definition snapshotRow (h : heap) (row : val) : jsval :=
  match readArray h row with
  | Some cells => JArr (shallow <$> cells)
  | None => shallow row
  end.

(** The value of the board in store [h], two levels deep. *)
Definition snapshot (h : heap) (board : val) : jsval :=
  match readArray h board with
  | Some rows => JArr (snapshotRow h <$> rows)
  | None => shallow board
  end.

(** A new array object. *)
Definition alloc (h : heap) (elems : list val) : loc * heap :=
  let l := fresh (dom h) in (l, <[l := elems]> h).

(** [[...row]]: the elements of an array (a row of a valid board is one). *)
Definition spread (h : heap) (row : val) : list val :=
  default [] (readArray h row).

(** The callbacks of [board.map(row => [...row])], row by row. *)
Fixpoint copyRows (h : heap) (rows : list val) : list val * heap :=
  match rows with
  | [] => ([], h)
  | row :: rest =>
      let '(l, h1) := alloc h (spread h row) in
      let '(rest', h2) := copyRows h1 rest in
      (VRef l :: rest', h2)
  end.

(** [board.map(row => [...row])] *)
Definition copyBoard (h : heap) (board : val) : val * heap :=
  let '(rows', h1) := copyRows h (spread h board) in
  let '(l, h2) := alloc h1 rows' in
  (VRef l, h2).

(** [a[i]] in the store *)
Definition loadIndex (h : heap) (a : val) (i : Z) : val :=
  match readArray h a with
  | Some elems => if 0 <=? i then default VUndefined (elems !! Z.to_nat i) else VUndefined
  | None => VUndefined
  end.

(** [a[i] = v] in the store: the object that [a] refers to is updated in
    place, for every holder of a reference to it. *)
Definition storeIndex (h : heap) (a : val) (i : Z) (v : val) : heap :=
  match a with
  | VRef l =>
      match h !! l with
      | Some elems =>
          if 0 <=? i then
            if bool_decide (Z.to_nat i < length elems)%nat
            then <[l := <[Z.to_nat i := v]> elems]> h
            else <[l := elems ++ replicate (Z.to_nat i - length elems) VUndefined ++ [v]]> h
          else h
      | None => h
      end
  | _ => h
  end.

(** [validateBoard] on the store: it only reads. *)
Definition validateBoardH (h : heap) (board : val) : option string * heap :=
  (validateBoard (snapshot h board), h).

(** The loop body of [findAllValidMoves] on the store. *)
Definition movesFromH (h : heap) (board : val) (block : cell) : option move * heap :=
  let '(tempBoard, h1) := copyBoard h board in
  let h2 := storeIndex h1 (loadIndex h1 tempBoard block.1) block.2 (VNum 0) in
  (movesOn (snapshot h2 tempBoard) block, h2).

(** [findAllValidMoves] on the store: the moves and the final store. *)
Definition findAllValidMovesH (h : heap) (board : val) : list move * heap :=
  foldl (λ st block,
           let '(m, h') := movesFromH st.2 board block in
           (st.1 ++ option_list m, h'))
        ([], h) (findBlocks (snapshot h board)).

(** ** Vocabulary of the properties *)

(** A block: an in-bounds cell holding [1]. *)
Definition marked (board : jsval) (n : cell) : Prop :=
  isValidCoord n = true ∧ isOne (cellAt board n) = true.

(** One traversal step: to a neighbour that is a block. *)
Definition edge (board : jsval) (x y : cell) : Prop :=
  y ∈ neighbors x ∧ marked board y.

(** [reach board s x]: [x] is [s] or is reached from [s] through blocks. *)
Definition reach (board : jsval) : relation cell := rtc (edge board).

(** All marked cells lie in one 4-connected component. *)
Definition connected (board : jsval) : Prop :=
  ∀ x y, marked board x → marked board y → reach board x y.

(** Steps between the blocks that remain when [b] is taken away. *)
Definition edgeWithout (board : jsval) (b : cell) (x y : cell) : Prop :=
  y ∈ neighbors x ∧ marked board y ∧ y ≠ b.

(** An articulation cell: a block whose removal leaves two remaining
    blocks that no chain of remaining blocks joins. *)
Definition articulation (board : jsval) (b : cell) : Prop :=
  marked board b
  ∧ ∃ x y, marked board x ∧ x ≠ b ∧ marked board y ∧ y ≠ b
           ∧ ¬ rtc (edgeWithout board b) x y.

(** A row: an array of [BOARD_SIZE] values. *)
Definition isRow (row : jsval) : Prop :=
  ∃ l, row = JArr l ∧ length l = Z.to_nat BOARD_SIZE.

(** The board is an array of [BOARD_SIZE] arrays of [BOARD_SIZE] values. *)
Definition shaped (board : jsval) : Prop :=
  ∃ rows, board = JArr rows ∧ length rows = Z.to_nat BOARD_SIZE ∧ Forall isRow rows.

(** The grid obtained by clearing [src] and setting [dst]. *)
Definition relocate (board : jsval) (src dst : cell) : jsval :=
  boardSet (boardSet board src (JNum 0)) dst (JNum 1).

(** The blocks of a board, as a set. *)
Definition blockSet (board : jsval) : gset cell := list_to_set (findBlocks board).

(** The in-bounds cells. *)
Definition allCells : gset cell :=
  list_to_set (r ← indices; c ← indices; [(r, c)]).

(** The keys of a set of cells. *)
Definition keys (X : gset cell) : gset string := set_map key X.

(** Only the digits of a number, as in a key part after its sign. *)
Fixpoint allDigits (s : string) : Prop :=
  match s with
  | EmptyString => True
  | String a s' => is_Some (digitValue a) ∧ allDigits s'
  end.

(** The loop invariant of the traversal from [s], at the head of the
    [while]; [visited] are the cells whose keys the visited set holds. *)
Record bfsInv (board : jsval) (s : cell)
    (queue : list cell) (visited : gset cell) (count : nat) : Prop := {
  inv_start : s ∈ visited;
  inv_nodup : NoDup queue;
  inv_queue : ∀ x, x ∈ queue → x ∈ visited;
  inv_reach : ∀ x, x ∈ visited → reach board s x;
  inv_closed : ∀ x y, x ∈ visited → x ∉ queue → edge board x y → y ∈ visited;
  inv_bound : visited ⊆ {[s]} ∪ allCells;
  inv_count : (count + length queue)%nat = size visited;
}.

(** [h'] keeps every object of [h] as it is (it may hold more). *)
Definition extends (h h' : heap) : Prop :=
  ∀ l, is_Some (h !! l) → h' !! l = h !! l.

(** References to objects that [h] does not hold. *)
Definition freshRefs (h : heap) (vs : list val) : Prop :=
  Forall (λ v, ∃ l, v = VRef l ∧ h !! l = None) vs.

(** ** Concrete boards *)

Definition emptyRow : jsval := JArr (replicate 10 (JNum 0)).
Definition fullRow : jsval := JArr (replicate 10 (JNum 1)).

Definition rowOf (cols : list Z) : jsval :=
  JArr ((λ c, if bool_decide (c ∈ cols) then JNum 1 else JNum 0) <$> indices).

Definition emptyBoard : jsval := JArr (replicate 10 emptyRow).

(** Row 0 marked in columns 0 to 9, zeros elsewhere. *)
Definition lineBoard : jsval := JArr (fullRow :: replicate 9 emptyRow).

(** Nine blocks: row 0, columns 0 to 8. *)
Definition nineBoard : jsval :=
  JArr (rowOf [0; 1; 2; 3; 4; 5; 6; 7; 8] :: replicate 9 emptyRow).

(** Two groups of five blocks: rows 0 and 2, columns 0 to 4. *)
Definition twoIslands : jsval :=
  JArr (rowOf [0; 1; 2; 3; 4] :: emptyRow :: rowOf [0; 1; 2; 3; 4]
        :: replicate 7 emptyRow).

(** The line with a cell that is neither 0 nor 1. *)
Definition lineWithTwo : jsval := boardSet lineBoard (5, 5) (JNum 2).

(** The two moves of the line, with the destinations in insertion order. *)
Definition lineMove0 : move :=
  {| from := (0, 0);
     to := [(1, 1); (0, 0); (1, 2); (1, 3); (1, 4); (1, 5); (1, 6); (1, 7);
            (1, 8); (1, 9)] |}.

Definition lineMove9 : move :=
  {| from := (0, 9);
     to := [(1, 0); (1, 1); (1, 2); (1, 3); (1, 4); (1, 5); (1, 6); (1, 7);
            (1, 8); (0, 9)] |}.

Definition lineMoves : list move := [lineMove0; lineMove9].

(** The line in a store: the board object at 1, its rows at 2 to 11. *)
Definition lineHeap : heap :=
  list_to_map
    ((1%positive, VRef <$> [2; 3; 4; 5; 6; 7; 8; 9; 10; 11]%positive)
     :: zip [2; 3; 4; 5; 6; 7; 8; 9; 10; 11]%positive
            (replicate 10 (VNum 1) :: replicate 9 (replicate 10 (VNum 0)))).

Definition lineRef : val := VRef 1%positive.

(** ** Further vocabulary of the engine *)

(** The blocks other than [b] are joined by chains of blocks other than
    [b]. *)
Definition remainingConnected (board : jsval) (b : cell) : Prop :=
  ∀ x y, marked board x → x ≠ b → marked board y → y ≠ b →
         rtc (edgeWithout board b) x y.

(** Row-major order of cells. *)
Definition rowMajorLt (a b : cell) : Prop :=
  a.1 < b.1 ∨ (a.1 = b.1 ∧ a.2 < b.2).

(** [d] is the least number of traversal steps from [r0] to [x]. *)
Definition distance (board : jsval) (r0 x : cell) (d : nat) : Prop :=
  nsteps (edge board) d r0 x ∧ ∀ i, (i < d)%nat → ¬ nsteps (edge board) i r0 x.

(** ** Cleaning the generator's reply *)

(** A JavaScript string, as its UTF-16 code units. *)
Definition text : Type := list N.

(** The code unit of the backtick. *)
Definition backtick : N := 96.

(** The patterns of the two [replace] calls: three backticks, and three
    backticks followed by [json]. *)
Definition fence : text := [96; 96; 96]%N.
Definition fenceJson : text := [96; 96; 96; 106; 115; 111; 110]%N.

(** [s] begins with [pat]. *)
Fixpoint startsWith (pat s : text) : bool :=
  match pat, s with
  | [], _ => true
  | p :: pat', c :: s' => (p =? c)%N && startsWith pat' s'
  | _ :: _, [] => false
  end.

(** The scan of [s.replace(/pat/g, '')] for a literal pattern that is not
    empty: [skip] code units of a match are still to be dropped; a match is
    taken at the first position where the pattern begins, and the scan goes
    on after it. *)
Fixpoint removeAllFrom (pat : text) (skip : nat) (s : text) : text :=
  match s with
  | [] => []
  | c :: s' =>
      match skip with
      | S k => removeAllFrom pat k s'
      | O =>
          if startsWith pat s then removeAllFrom pat (length pat - 1) s'
          else c :: removeAllFrom pat 0 s'
      end
  end.

Definition removeAll (pat s : text) : text := removeAllFrom pat 0 s.

(** The code units that [trim] strips: white space and line terminators. *)
Definition isWhiteSpace (c : N) : bool :=
  ((9 <=? c) && (c <=? 13) || (c =? 32) || (c =? 160) || (c =? 5760)
   || (8192 <=? c) && (c <=? 8202) || (c =? 8232) || (c =? 8233)
   || (c =? 8239) || (c =? 8287) || (c =? 12288) || (c =? 65279))%N.

Fixpoint trimStart (s : text) : text :=
  match s with
  | [] => []
  | c :: s' => if isWhiteSpace c then trimStart s' else s
  end.

(** [s.trim()] *)
Definition trim (s : text) : text :=
  reverse (trimStart (reverse (trimStart s))).

(** [responseText.replace(/```json/g, '').replace(/```/g, '').trim()] *)
Definition cleanReply (responseText : text) : text :=
  trim (removeAll fence (removeAll fenceJson responseText)).

(** [pat] occurs nowhere in [s]. *)
Definition noOccurrence (pat s : text) : Prop :=
  ∀ a b, s ≠ a ++ pat ++ b.

(** ** The 50x50 drawing endpoints *)

(** The arrayElems of an array value (none for another value). *)
Definition arrayElems (v : jsval) : list jsval :=
  match v with JArr l => l | _ => [] end.

(** [r => !Array.isArray(r) || r.length !== 50 || r.some(c => c !== 0 && c !== 1)] *)
Definition badPixelRow (r : jsval) : bool :=
  negb (isArray r)
  || negb (bool_decide (jsLength r = 50%nat))
  || existsb (λ c, negb (isZero c) && negb (isOne c)) (arrayElems r).

(** The test that answers 400 in both handlers of the drawing server. *)
Definition badPixelBoard (board : jsval) : bool :=
  negb (isArray board)
  || negb (bool_decide (jsLength board = 50%nat))
  || existsb badPixelRow (arrayElems board).

(** [if (Array.isArray(board) && board.length === 51) board = board.slice(0, 50)] *)
Definition dropExtraRow (board : jsval) : jsval :=
  if isArray board && bool_decide (jsLength board = 51%nat)
  then JArr (take 50 (arrayElems board))
  else board.

(** The board that the drawing [/getBoard] puts in its prompt; [None] when
    it answers 400. *)
Definition drawingBoard (body : jsval) : option jsval :=
  let board := dropExtraRow body in
  if badPixelBoard board then None else Some board.

(** The board that the drawing [/predict] puts in its prompt; [None] when
    it answers 400. *)
Definition predictBoard (body : jsval) : option jsval :=
  if badPixelBoard body then None else Some body.

(** A row of 50 cells, each 0 or 1. *)
Definition pixelRow (r : jsval) : Prop :=
  ∃ cells, r = JArr cells ∧ length cells = 50%nat
           ∧ Forall (λ c, c = JNum 0 ∨ c = JNum 1) cells.

(** ** The diagram of the prompt *)

(** [row.map(cell => (cell === 1 ? '#' : ' ')).join('')] *)
Definition visualRow (row : jsval) : list N :=
  concat ((λ cell, if isOne cell then [35%N] else [32%N]) <$> arrayElems row).

(** [board.map(row => ...)] *)
Definition visualRows (board : jsval) : list (list N) :=
  visualRow <$> arrayElems board.

(** ** Further concrete data *)

(** The line in a store where rows 1 to 9 of the board are one and the
    same object. *)
Definition sharedRowHeap : heap :=
  list_to_map
    [ (1%positive, VRef 2%positive :: replicate 9 (VRef 3%positive));
      (2%positive, replicate 10 (VNum 1));
      (3%positive, replicate 10 (VNum 0)) ].

(** A line feed, an opening and a closing brace, a line feed. *)
Definition sampleBody : text := [10; 123; 125; 10]%N.

(** Fifty rows of fifty zeros. *)
Definition blankDrawing : list jsval :=
  replicate 50 (JArr (replicate 50 (JNum 0))).

(** ** Keys are read back as the cells they were made from *)

Lemma digitValue_pretty_N_char x :
  (x < 10)%N → digitValue (pretty_N_char x) = Some (Z.of_N x).
Proof.
  intros Hx. destruct x as [|p]; [reflexivity|].
  do 4 (try destruct p as [p|p|]); try reflexivity; lia.
Qed.

Lemma pretty_N_go_digits x s :
  allDigits s →
  allDigits (pretty_N_go x s)
  ∧ ∃ k : Z, 0 ≤ k ∧ ∀ acc, parseDigits (pretty_N_go x s) acc
                          = parseDigits s (acc * 10 ^ k + Z.of_N x).
Proof.
  revert s. induction (N.lt_wf_0 x) as [x _ IH]. intros s Hs.
  destruct (decide (x = 0%N)) as [->|Hx].
  - rewrite pretty_N_go_0. split; [done|]. exists 0. split; [done|].
    intros acc. f_equal. lia.
  - rewrite pretty_N_go_step by lia.
    assert (x `mod` 10 < 10)%N as Hmod by (apply N.mod_lt; lia).
    pose proof (digitValue_pretty_N_char _ Hmod) as Hd.
    destruct (IH (x `div` 10)%N) with (s := String (pretty_N_char (x `mod` 10)) s)
      as (Hall & k & Hk & Hparse).
    { apply N.div_lt; lia. }
    { split; [by rewrite Hd|done]. }
    split; [done|]. exists (k + 1). split; [lia|]. intros acc.
    rewrite Hparse. cbn [parseDigits]. rewrite Hd. f_equal.
    rewrite Z.pow_add_r by lia.
    pose proof (N.div_mod x 10). lia.
Qed.

Lemma allDigits_pretty_N (x : N) : allDigits (pretty x).
Proof.
  unfold pretty, pretty_N. case_decide; [by split|].
  by apply pretty_N_go_digits.
Qed.

Lemma parseDigits_pretty_N (x : N) : parseDigits (pretty x) 0 = Z.of_N x.
Proof.
  unfold pretty, pretty_N. case_decide as Hx; [by subst|].
  destruct (pretty_N_go_digits x "") as (_ & k & _ & ->); [done|]. cbn. lia.
Qed.

Lemma allDigits_head_not_minus s :
  allDigits s → match s with String "-" _ => False | _ => True end.
Proof.
  destruct s as [|a s]; [done|]. intros [[d Hd] _].
  destruct a as [[] [] [] [] [] [] [] []]; try done.
Qed.

Lemma parseInt_pretty (z : Z) : parseInt (pretty z) = z.
Proof.
  destruct z as [|p|p]; [done| |].
  - change (pretty (Z.pos p)) with (pretty (N.pos p)).
    pose proof (allDigits_head_not_minus _ (allDigits_pretty_N (N.pos p))) as Hh.
    pose proof (parseDigits_pretty_N (N.pos p)) as Hp.
    unfold parseInt. destruct (pretty (N.pos p)) as [|a s]; [done|].
    destruct a as [[] [] [] [] [] [] [] []]; done.
  - change (pretty (Z.neg p)) with (String "-" (pretty (N.pos p))).
    change (- parseDigits (pretty (N.pos p)) 0 = Z.neg p).
    rewrite parseDigits_pretty_N. done.
Qed.

Lemma splitComma_digits s t :
  allDigits s →
  splitComma (s +:+ "," +:+ t) = s :: splitComma t.
Proof.
  induction s as [|a s IH]; [done|]. intros [[d Hd] Hs].
  change (String a s +:+ "," +:+ t) with (String a (s +:+ "," +:+ t)).
  cbn [splitComma]. rewrite (IH Hs).
  destruct (Ascii.eqb a ",") eqn:E; [|done].
  apply Ascii.eqb_eq in E as ->. done.
Qed.

Lemma splitComma_minus s t :
  splitComma (s +:+ "," +:+ t) = s :: splitComma t →
  splitComma (String "-" s +:+ "," +:+ t) = String "-" s :: splitComma t.
Proof.
  intros H. change (String "-" s +:+ "," +:+ t) with (String "-" (s +:+ "," +:+ t)).
  cbn [splitComma]. by rewrite H.
Qed.

Lemma splitComma_pretty (z : Z) t :
  splitComma (pretty z +:+ "," +:+ t) = pretty z :: splitComma t.
Proof.
  destruct z as [|p|p]; [done| |].
  - apply splitComma_digits, (allDigits_pretty_N (N.pos p)).
  - apply splitComma_minus, splitComma_digits, (allDigits_pretty_N (N.pos p)).
Qed.

Lemma splitComma_no_comma (z : Z) : splitComma (pretty z) = [pretty z].
Proof.
  assert (∀ s, allDigits s → splitComma s = [s]) as Hd.
  { induction s as [|a s IH]; [done|]. intros [[d Hd] Hs].
    cbn [splitComma]. rewrite (IH Hs).
    destruct (Ascii.eqb a ",") eqn:E; [|done].
    apply Ascii.eqb_eq in E as ->. done. }
  destruct z as [|p|p]; [done| |].
  - apply Hd, (allDigits_pretty_N (N.pos p)).
  - change (pretty (Z.neg p)) with (String "-" (pretty (N.pos p))).
    cbn [splitComma]. rewrite Hd by apply (allDigits_pretty_N (N.pos p)). done.
Qed.

(** Reading a key back gives the cell it was made from. *)
Lemma parseKey_key n : parseKey (key n) = n.
Proof.
  destruct n as [r c]. unfold parseKey, key. cbn [fst snd].
  rewrite splitComma_pretty, splitComma_no_comma. cbn.
  by rewrite !parseInt_pretty.
Qed.

Lemma key_inj n1 n2 : key n1 = key n2 → n1 = n2.
Proof. intros H. by rewrite <- (parseKey_key n1), H, parseKey_key. Qed.

Lemma elem_of_keys (X : gset cell) x : key x ∈ keys X ↔ x ∈ X.
Proof.
  unfold keys. rewrite elem_of_map. split.
  - by intros (y & <-%key_inj & Hy).
  - intros Hx. by exists x.
Qed.

Lemma keys_insert (X : gset cell) x : {[key x]} ∪ keys X = keys ({[x]} ∪ X).
Proof. unfold keys. by rewrite set_map_union_L, set_map_singleton_L. Qed.

Lemma keys_singleton x : {[key x]} = keys {[x]}.
Proof. unfold keys. by rewrite set_map_singleton_L. Qed.

(** ** Coordinates and the scan of the board *)

Lemma isValidCoord_spec n :
  isValidCoord n = true ↔ 0 ≤ n.1 < BOARD_SIZE ∧ 0 ≤ n.2 < BOARD_SIZE.
Proof.
  unfold isValidCoord. rewrite !andb_true_iff, !Z.leb_le, !Z.ltb_lt. lia.
Qed.

Lemma elem_of_indices i : i ∈ indices ↔ 0 ≤ i < BOARD_SIZE.
Proof. unfold indices. rewrite elem_of_seqZ. lia. Qed.

Lemma elem_of_findBlocks board n : n ∈ findBlocks board ↔ marked board n.
Proof.
  unfold findBlocks, marked. rewrite list_elem_of_bind, isValidCoord_spec.
  split.
  - intros (r & (c & Hn & Hc%elem_of_indices)%list_elem_of_bind & Hr%elem_of_indices).
    destruct (isOne (cellAt board (r, c))) eqn:E; [|by apply elem_of_nil in Hn].
    apply list_elem_of_singleton in Hn as ->. done.
  - intros [[Hr Hc] Hone]. destruct n as [r c]; cbn [fst snd] in *.
    exists r. rewrite elem_of_indices. split; [|done].
    apply list_elem_of_bind. exists c. rewrite elem_of_indices, Hone.
    split; [apply list_elem_of_singleton; done|done].
Qed.

Lemma NoDup_findBlocks board : NoDup (findBlocks board).
Proof.
  unfold findBlocks. apply NoDup_bind; [| |apply NoDup_seqZ].
  - intros r1 r2 n _ _ (c1 & H1 & _)%list_elem_of_bind (c2 & H2 & _)%list_elem_of_bind.
    destruct (isOne _); [|by apply elem_of_nil in H1].
    destruct (isOne _); [|by apply elem_of_nil in H2].
    apply list_elem_of_singleton in H1, H2. congruence.
  - intros r _. apply NoDup_bind; [| |apply NoDup_seqZ].
    + intros c1 c2 n _ _ H1 H2.
      destruct (isOne _); [|by apply elem_of_nil in H1].
      destruct (isOne _); [|by apply elem_of_nil in H2].
      apply list_elem_of_singleton in H1, H2. congruence.
    + intros c _. destruct (isOne _); [apply NoDup_singleton|apply NoDup_nil_2].
Qed.

(** ** The breadth-first traversal *)

Section traversal.
Variable board : jsval.
Variable s : cell.

(** What the inner loop does to the queue and the visited set. *)
Lemma visit_foldl (l : list cell) (q : list cell) (V : gset cell) :
  ∃ new : list cell,
    (foldl (visit board) (q, keys V) l).1 = q ++ new
    ∧ (foldl (visit board) (q, keys V) l).2 = keys (list_to_set new ∪ V)
    ∧ NoDup new
    ∧ (∀ x, x ∈ new → x ∈ l ∧ marked board x ∧ x ∉ V)
    ∧ (∀ x, x ∈ l → marked board x → x ∈ list_to_set new ∪ V).
Proof.
  revert q V. induction l as [|nb l IH]; intros q V.
  - exists []. cbn. rewrite app_nil_r. split_and!; try done.
    + f_equal. set_solver.
    + constructor.
    + intros x Hx. by apply elem_of_nil in Hx.
    + intros x Hx. by apply elem_of_nil in Hx.
  - cbn [foldl]. unfold visit at 2 4. cbn [fst snd].
    destruct (isValidCoord nb && isOne (cellAt board nb)
              && negb (bool_decide (key nb ∈ keys V))) eqn:E.
    + apply andb_true_iff in E as [[Hv Ho]%andb_true_iff Hn].
      apply negb_true_iff, bool_decide_eq_false in Hn. rewrite elem_of_keys in Hn.
      rewrite keys_insert.
      destruct (IH (q ++ [nb]) ({[nb]} ∪ V)) as (new & Hq & Hs & Hnd & Hnew & Hall).
      exists (nb :: new). rewrite Hq, Hs. split_and!.
      * by rewrite <- app_assoc.
      * f_equal. set_solver.
      * constructor; [|done]. intros Hin. apply Hnew in Hin. set_solver.
      * intros x [->|Hx]%elem_of_cons.
        -- split_and!; [left|split|]; done.
        -- apply Hnew in Hx as (? & ? & ?). split_and!; [by right|done|set_solver].
      * intros x [->|Hx]%elem_of_cons Hm; [set_solver|].
        specialize (Hall x Hx Hm). set_solver.
    + destruct (IH q V) as (new & Hq & Hs & Hnd & Hnew & Hall).
      exists new. rewrite Hq, Hs. split_and!; try done.
      * intros x Hx. apply Hnew in Hx as (? & ? & ?). split_and!; [by right|done..].
      * intros x [->|Hx]%elem_of_cons Hm; [|by apply Hall].
        destruct Hm as [Hv Ho]. rewrite Hv, Ho in E. cbn in E.
        apply negb_false_iff, bool_decide_eq_true in E. rewrite elem_of_keys in E.
        set_solver.
Qed.

Lemma bfsInv_init : bfsInv board s [s] {[s]} 0.
Proof.
  split.
  - set_solver.
  - apply NoDup_singleton.
  - set_solver.
  - intros x ->%elem_of_singleton. apply rtc_refl.
  - intros x y ->%elem_of_singleton Hn. set_solver.
  - set_solver.
  - by rewrite size_singleton.
Qed.

Lemma elem_of_allCells n : n ∈ allCells ↔ isValidCoord n = true.
Proof.
  unfold allCells. rewrite elem_of_list_to_set, list_elem_of_bind, isValidCoord_spec.
  split.
  - intros (r & (c & ->%list_elem_of_singleton & Hc%elem_of_indices)%list_elem_of_bind
              & Hr%elem_of_indices). done.
  - intros [Hr Hc]. destruct n as [r c]; cbn [fst snd] in *.
    exists r. rewrite elem_of_indices. split; [|done].
    apply list_elem_of_bind. exists c. rewrite elem_of_indices.
    split; [by apply list_elem_of_singleton|done].
Qed.

Lemma bfsInv_step n rest V count :
  bfsInv board s (n :: rest) V count →
  ∃ V' : gset cell,
    (foldl (visit board) (rest, keys V) (neighbors n)).2 = keys V'
    ∧ bfsInv board s (foldl (visit board) (rest, keys V) (neighbors n)).1 V' (S count).
Proof.
  intros [Hs Hnd Hq Hr Hc Hb Hn].
  destruct (visit_foldl (neighbors n) rest V)
    as (new & -> & -> & Hnew & Hin & Hall).
  apply NoDup_cons in Hnd as [Hnrest Hnd].
  eexists. split; [done|]. split.
  - set_solver.
  - apply NoDup_app. split_and!; [done| |done].
    intros x Hx Hx'. apply Hin in Hx' as (_ & _ & Hx'). apply Hx', Hq. by right.
  - intros x [Hx|Hx]%elem_of_app; [|set_solver].
    apply elem_of_union_r, Hq. by right.
  - intros x [Hx|Hx]%elem_of_union; [|by apply Hr].
    apply elem_of_list_to_set, Hin in Hx as (Hx & Hm & _).
    eapply rtc_r; [apply Hr, Hq; left|split; done].
  - intros x y Hx Hnq [Hy Hm].
    rewrite not_elem_of_app in Hnq. destruct Hnq as [Hnq Hnn].
    apply elem_of_union in Hx as [Hx|Hx]; [by apply elem_of_list_to_set in Hx|].
    destruct (decide (x = n)) as [->|Hne].
    + by apply Hall.
    + apply elem_of_union_r, (Hc x); [done| |done]. set_solver.
  - intros x [Hx|Hx]%elem_of_union; [|by apply Hb].
    apply elem_of_list_to_set, Hin in Hx as (_ & [Hv _] & _).
    by apply elem_of_union_r, elem_of_allCells.
  - rewrite length_app, size_union, size_list_to_set by (done || set_solver).
    cbn [length] in Hn. lia.
Qed.

Lemma size_allCells : size allCells = Z.to_nat (BOARD_SIZE * BOARD_SIZE).
Proof. vm_compute. reflexivity. Qed.

(** A set closed under traversal steps holds all that is reachable. *)
Lemma closed_reach (X : gset cell) :
  s ∈ X → (∀ x y, x ∈ X → edge board x y → y ∈ X) →
  ∀ x, reach board s x → x ∈ X.
Proof.
  intros Hs Hc. apply rtc_ind_r; [done|].
  intros y z _ Hyz Hy. by eapply Hc.
Qed.

Lemma bfsLoop_correct fuel queue visited count :
  bfsInv board s queue visited count →
  (bfsFuel ≤ fuel + count)%nat →
  ∃ X : gset cell,
    (∀ x, x ∈ X ↔ reach board s x)
    ∧ bfsLoop fuel board queue (keys visited) count = Some (size X).
Proof.
  revert queue visited count.
  induction fuel as [|fuel IH]; intros queue visited count Hinv Hfuel.
  - destruct queue as [|n rest].
    + exists visited. destruct Hinv as [Hs Hnd Hq Hr Hc Hb Hn]. split.
      * intros x. split; [apply Hr|]. apply closed_reach; [done|].
        intros y z Hy Hyz. eapply Hc; [done|apply not_elem_of_nil|done].
      * cbn in *. f_equal. lia.
    + exfalso. destruct Hinv as [Hs Hnd Hq Hr Hc Hb Hn].
      apply subseteq_size in Hb.
      rewrite size_union_alt, size_singleton in Hb.
      assert (size (allCells ∖ {[s]}) ≤ size allCells)%nat
        by (apply subseteq_size; set_solver).
      rewrite size_allCells in *. unfold bfsFuel in Hfuel. cbn [length] in Hn. lia.
  - destruct queue as [|n rest].
    + exists visited. destruct Hinv as [Hs Hnd Hq Hr Hc Hb Hn]. split.
      * intros x. split; [apply Hr|]. apply closed_reach; [done|].
        intros y z Hy Hyz. eapply Hc; [done|apply not_elem_of_nil|done].
      * cbn in *. f_equal. lia.
    + cbn [bfsLoop]. cbn zeta.
      destruct (bfsInv_step _ _ _ _ Hinv) as (V' & -> & Hinv').
      apply IH; [done|lia].
Qed.
End traversal.

(** The traversal ends within [bfsFuel] rounds, and its count is the size
    of the set of cells reachable from the start node. *)
Lemma countConnectedBlocksFuel_component board s fuel :
  (bfsFuel ≤ fuel)%nat →
  ∃ X : gset cell,
    (∀ x, x ∈ X ↔ reach board s x)
    ∧ countConnectedBlocksFuel fuel board (Some s) = Some (size X).
Proof.
  intros Hfuel. cbn [countConnectedBlocksFuel]. rewrite keys_singleton.
  apply bfsLoop_correct; [apply bfsInv_init|lia].
Qed.

Lemma countConnectedBlocks_component board s :
  ∃ X : gset cell,
    (∀ x, x ∈ X ↔ reach board s x) ∧ countConnectedBlocks board (Some s) = size X.
Proof.
  destruct (countConnectedBlocksFuel_component board s bfsFuel) as (X & HX & Hc); [done|].
  exists X. split; [done|]. unfold countConnectedBlocks. by rewrite Hc.
Qed.

(** More fuel does not change the result. *)
Lemma countConnectedBlocksFuel_enough board startNode fuel :
  (bfsFuel ≤ fuel)%nat →
  countConnectedBlocksFuel fuel board startNode
  = Some (countConnectedBlocks board startNode).
Proof.
  intros Hfuel. destruct startNode as [s|]; [|done].
  destruct (countConnectedBlocksFuel_component board s fuel) as (X & HX & ->); [done|].
  destruct (countConnectedBlocks_component board s) as (Y & HY & ->).
  do 2 f_equal. apply set_eq. intros x. by rewrite HX, HY.
Qed.

(** ** Facts on reachability *)

Lemma neighbors_sym x y : y ∈ neighbors x → x ∈ neighbors y.
Proof.
  destruct x as [xr xc], y as [yr yc]. unfold neighbors. cbn [fst snd].
  rewrite !elem_of_cons, !elem_of_nil.
  intros [H|[H|[H|[H|[]]]]]; inversion H; subst.
  - right; left. f_equal; lia.
  - left. f_equal; lia.
  - do 3 right; left. f_equal; lia.
  - do 2 right; left. f_equal; lia.
Qed.

Lemma neighbors_irrefl x : x ∉ neighbors x.
Proof.
  destruct x as [xr xc]. unfold neighbors. cbn [fst snd].
  rewrite !elem_of_cons, !elem_of_nil.
  intros [H|[H|[H|[H|[]]]]]; inversion H; lia.
Qed.

Lemma reach_marked board s x : marked board s → reach board s x → marked board x.
Proof.
  intros Hs Hx. apply rtc_inv_r in Hx as [<-|(y & _ & _ & Hm)]; done.
Qed.

Lemma reach_sym board s x : marked board s → reach board s x → reach board x s.
Proof.
  intros Hs Hx. induction Hx as [|x y z [Hn Hy] Hyz IH]; [apply rtc_refl|].
  eapply rtc_r; [by apply IH|]. split; [by apply neighbors_sym|done].
Qed.

Lemma reach_mono board board' s x :
  (∀ n, marked board n → marked board' n) →
  reach board s x → reach board' s x.
Proof.
  intros Hsub. apply rtc_subrel. intros a b [Hn Hm]. split; auto.
Qed.

(** ** Counting blocks *)

Lemma elem_of_blockSet board n : n ∈ blockSet board ↔ marked board n.
Proof. unfold blockSet. by rewrite elem_of_list_to_set, elem_of_findBlocks. Qed.

Lemma size_blockSet board : size (blockSet board) = length (findBlocks board).
Proof. apply size_list_to_set, NoDup_findBlocks. Qed.

Lemma head_findBlocks_marked board s : head (findBlocks board) = Some s → marked board s.
Proof. intros Hs. apply elem_of_findBlocks. by apply head_Some_elem_of. Qed.

Lemma countConnectedBlocks_None board : countConnectedBlocks board None = 0%nat.
Proof. reflexivity. Qed.

Lemma countConnectedBlocks_le board s :
  marked board s →
  (countConnectedBlocks board (Some s) ≤ length (findBlocks board))%nat.
Proof.
  intros Hs. destruct (countConnectedBlocks_component board s) as (X & HX & ->).
  rewrite <- size_blockSet. apply subseteq_size. intros x Hx.
  apply elem_of_blockSet. eapply reach_marked; [done|by apply HX].
Qed.

(** From a block, the count equals the number of blocks exactly when every
    block is reachable. *)
Lemma countConnectedBlocks_all board s :
  marked board s →
  countConnectedBlocks board (Some s) = length (findBlocks board)
  ↔ ∀ y, marked board y → reach board s y.
Proof.
  intros Hs. destruct (countConnectedBlocks_component board s) as (X & HX & ->).
  rewrite <- size_blockSet.
  assert (X ⊆ blockSet board) as Hsub.
  { intros x Hx. apply elem_of_blockSet. eapply reach_marked; [done|by apply HX]. }
  split.
  - intros Hsize y Hy. apply HX.
    assert (X = blockSet board) as -> by (apply set_subseteq_size_eq; [done|lia]).
    by apply elem_of_blockSet.
  - intros Hall. f_equal. apply set_eq. intros x. rewrite elem_of_blockSet, HX.
    split; [by apply reach_marked|apply Hall].
Qed.

Lemma connected_from board s :
  marked board s → (∀ y, marked board y → reach board s y) → connected board.
Proof.
  intros Hs Hall x y Hx Hy. etrans; [|by apply Hall].
  apply reach_sym; [done|by apply Hall].
Qed.

(** ** The shape test and the working copy *)

Lemma shapeOk_spec board : shapeOk board = true ↔ shaped board.
Proof.
  unfold shapeOk, shaped. split.
  - destruct board as [| | | | |rows]; try done. cbn [isArray jsLength andb].
    intros [Hlen Hrows]%andb_true_iff. apply bool_decide_eq_true in Hlen.
    exists rows. split_and!; [done..|].
    apply negb_true_iff in Hrows. apply Forall_forall. intros row Hrow.
    destruct row as [| | | | |l].
    6: { exists l. split; [done|].
         destruct (decide (length l = Z.to_nat BOARD_SIZE)) as [|Hne]; [done|].
         exfalso. apply not_true_iff_false in Hrows. apply Hrows.
         apply existsb_exists. exists (JArr l). split; [by apply list_elem_of_In|].
         cbn. by apply negb_true_iff, bool_decide_eq_false. }
    all: exfalso; apply not_true_iff_false in Hrows; apply Hrows;
      apply existsb_exists; eexists; (split; [by apply list_elem_of_In|done]).
  - intros (rows & -> & Hlen & Hrows). cbn [isArray jsLength andb].
    apply andb_true_iff. split; [by apply bool_decide_eq_true|].
    apply negb_true_iff, not_true_iff_false.
    intros (row & Hin%list_elem_of_In & Hbad)%existsb_exists.
    rewrite Forall_forall in Hrows. destruct (Hrows row Hin) as (l & -> & Hl).
    cbn in Hbad. by rewrite bool_decide_eq_true_2 in Hbad.
Qed.

Lemma index_arraySet l i j v :
  (0 ≤ i < Z.of_nat (length l)) →
  index (arraySet (JArr l) i v) j = if decide (j = i) then v else index (JArr l) j.
Proof.
  intros Hi. unfold arraySet, index.
  rewrite (proj2 (Z.leb_le 0 i)) by lia.
  rewrite bool_decide_eq_true_2 by lia.
  destruct (decide (j = i)) as [->|Hne].
  - rewrite (proj2 (Z.leb_le 0 i)) by lia.
    rewrite list_lookup_insert_eq by lia. done.
  - destruct (0 <=? j) eqn:Hj; [|done]. apply Z.leb_le in Hj.
    rewrite list_lookup_insert_ne by lia. done.
Qed.

Lemma arraySet_length l i v :
  (0 ≤ i < Z.of_nat (length l)) →
  ∃ l', arraySet (JArr l) i v = JArr l' ∧ length l' = length l.
Proof.
  intros Hi. unfold arraySet.
  rewrite (proj2 (Z.leb_le 0 i)) by lia.
  rewrite bool_decide_eq_true_2 by lia.
  eexists. split; [done|]. apply length_insert.
Qed.

Section workingCopy.
Variable board : jsval.
Variable n : cell.
Variable v : jsval.
Hypothesis Hshaped : shaped board.
Hypothesis Hvalid : isValidCoord n = true.

Lemma index_row : isRow (index board n.1).
Proof.
  destruct Hshaped as (rows & -> & Hlen & Hrows).
  apply isValidCoord_spec in Hvalid as [Hr _].
  unfold index. rewrite (proj2 (Z.leb_le 0 n.1)) by lia.
  destruct (lookup_lt_is_Some_2 rows (Z.to_nat n.1)) as [row Hrow]; [lia|].
  rewrite Hrow. cbn. rewrite Forall_forall in Hrows.
  apply Hrows. by eapply list_elem_of_lookup_2.
Qed.

Lemma cellAt_boardSet n' :
  cellAt (boardSet board n v) n' = if decide (n' = n) then v else cellAt board n'.
Proof.
  destruct index_row as (l & Hl & Hlen).
  destruct Hshaped as (rows & -> & Hrlen & Hrows).
  apply isValidCoord_spec in Hvalid as [Hr Hc].
  unfold cellAt, boardSet. rewrite index_arraySet by lia.
  destruct n as [r c], n' as [r' c']. cbn [fst snd] in *.
  destruct (decide (r' = r)) as [->|Hne].
  - rewrite Hl, index_arraySet by lia.
    destruct (decide (c' = c)) as [->|Hne].
    + by rewrite decide_True.
    + rewrite decide_False by congruence. done.
  - rewrite decide_False by congruence. done.
Qed.

Lemma shaped_boardSet : shaped (boardSet board n v).
Proof.
  destruct index_row as (l & Hl & Hlen).
  destruct Hshaped as (rows & -> & Hrlen & Hrows).
  apply isValidCoord_spec in Hvalid as [Hr Hc].
  unfold boardSet. rewrite Hl.
  destruct (arraySet_length l n.2 v) as (l' & -> & Hl'); [lia|].
  unfold arraySet. rewrite (proj2 (Z.leb_le 0 n.1)) by lia.
  rewrite bool_decide_eq_true_2 by lia.
  eexists. split_and!; [done|by rewrite length_insert|].
  apply Forall_insert; [done|]. exists l'. split; [done|lia].
Qed.
End workingCopy.

(** ** What [validateBoard] decides *)

Lemma validateBoard_None board :
  validateBoard board = None
  ↔ shaped board
    ∧ length (findBlocks board) = BLOCK_COUNT
    ∧ countConnectedBlocks board (head (findBlocks board)) = BLOCK_COUNT.
Proof.
  unfold validateBoard. rewrite <- shapeOk_spec.
  destruct (shapeOk board); cbn [negb]; [|naive_solver].
  case_bool_decide; cbn [negb]; [|naive_solver].
  case_bool_decide; cbn [negb]; naive_solver.
Qed.

Lemma validateBoard_MalformedShape board :
  validateBoard board = Some MalformedShape ↔ ¬ shaped board.
Proof.
  unfold validateBoard. rewrite <- shapeOk_spec.
  destruct (shapeOk board); cbn [negb]; [|naive_solver].
  repeat (case_bool_decide; cbn [negb]); naive_solver.
Qed.

Lemma validateBoard_WrongBlockCount board :
  validateBoard board = Some WrongBlockCount
  ↔ shaped board ∧ length (findBlocks board) ≠ BLOCK_COUNT.
Proof.
  unfold validateBoard. rewrite <- shapeOk_spec.
  destruct (shapeOk board); cbn [negb]; [|naive_solver].
  repeat (case_bool_decide; cbn [negb]); naive_solver.
Qed.

Lemma validateBoard_Disconnected board :
  validateBoard board = Some Disconnected
  ↔ shaped board
    ∧ length (findBlocks board) = BLOCK_COUNT
    ∧ countConnectedBlocks board (head (findBlocks board)) ≠ BLOCK_COUNT.
Proof.
  unfold validateBoard. rewrite <- shapeOk_spec.
  destruct (shapeOk board); cbn [negb]; [|naive_solver].
  repeat (case_bool_decide; cbn [negb]); naive_solver.
Qed.

(** A board that passes is connected. *)
Lemma validateBoard_connected board :
  validateBoard board = None → connected board.
Proof.
  intros (_ & Hlen & Hcount)%validateBoard_None.
  destruct (head (findBlocks board)) as [s|] eqn:Hs; [|done].
  apply head_findBlocks_marked in Hs as Hm.
  apply (connected_from board s Hm), countConnectedBlocks_all; [done|congruence].
Qed.

(** ** The destinations collected for one block *)

Section destinations.
Variable tempBoard : jsval.

Lemma elem_of_setAdd s k x : x ∈ setAdd s k ↔ x ∈ s ∨ x = k.
Proof.
  unfold setAdd. case_bool_decide; [naive_solver|].
  rewrite elem_of_app, list_elem_of_singleton. done.
Qed.

Lemma NoDup_setAdd s k : NoDup s → NoDup (setAdd s k).
Proof.
  intros Hs. unfold setAdd. case_bool_decide; [done|].
  apply NoDup_app. split_and!; [done| |apply NoDup_singleton].
  intros x Hx ->%list_elem_of_singleton. done.
Qed.

Lemma elem_of_addCandidates l dests k :
  k ∈ addCandidates tempBoard dests l
  ↔ k ∈ dests
    ∨ ∃ x, x ∈ l ∧ isValidCoord x && isZero (cellAt tempBoard x) = true ∧ k = key x.
Proof.
  unfold addCandidates. revert dests.
  induction l as [|nb l IH]; intros dests; cbn [foldl].
  - split; [by left|]. intros [Hk|(x & Hx & _)]; [done|by apply elem_of_nil in Hx].
  - rewrite IH. setoid_rewrite elem_of_cons.
    destruct (isValidCoord nb && isZero (cellAt tempBoard nb)) eqn:E.
    + rewrite elem_of_setAdd. split.
      * intros [[Hk| ->]|(x & Hx & Hc & ->)]; [by left|right..].
        -- exists nb. split_and!; [by left|done..].
        -- exists x. split_and!; [by right|done..].
      * intros [Hk|(x & [->|Hx] & Hc & ->)].
        -- by left; left.
        -- by left; right.
        -- right. by exists x.
    + split.
      * intros [Hk|(x & Hx & Hc & ->)]; [by left|right].
        exists x. split_and!; [by right|done..].
      * intros [Hk|(x & [->|Hx] & Hc & ->)]; [by left|congruence|right].
        by exists x.
Qed.

Lemma NoDup_addCandidates l dests :
  NoDup dests → NoDup (addCandidates tempBoard dests l).
Proof.
  unfold addCandidates. revert dests.
  induction l as [|nb l IH]; intros dests Hd; [done|].
  cbn [foldl]. apply IH. destruct (_ && _); [by apply NoDup_setAdd|done].
Qed.

Lemma elem_of_addNeighbors_foldl remaining dests k :
  k ∈ foldl (addNeighbors tempBoard) dests remaining
  ↔ k ∈ dests
    ∨ ∃ otherBlock x, otherBlock ∈ remaining ∧ x ∈ neighbors otherBlock
                      ∧ isValidCoord x && isZero (cellAt tempBoard x) = true
                      ∧ k = key x.
Proof.
  revert dests. induction remaining as [|b l IH]; intros dests; cbn [foldl].
  - split; [by left|].
    intros [Hk|(o & x & Ho & _)]; [done|by apply elem_of_nil in Ho].
  - unfold addNeighbors at 2. rewrite IH, elem_of_addCandidates. split.
    + intros [[Hk|(x & Hx & Hc & ->)]|(o & x & Ho & Hx & Hc & ->)].
      * by left.
      * right. exists b, x. split_and!; [left|..]; done.
      * right. exists o, x. split_and!; [by right|..]; done.
    + intros [Hk|(o & x & [->|Ho]%elem_of_cons & Hx & Hc & ->)].
      * by left; left.
      * left; right. by exists x.
      * right. by exists o, x.
Qed.

Lemma elem_of_validDestinations remaining k :
  k ∈ validDestinations tempBoard remaining
  ↔ ∃ otherBlock x, otherBlock ∈ remaining ∧ x ∈ neighbors otherBlock
                    ∧ isValidCoord x = true ∧ isZero (cellAt tempBoard x) = true
                    ∧ k = key x.
Proof.
  unfold validDestinations. rewrite elem_of_addNeighbors_foldl. split.
  - intros [Hk|(o & x & Ho & Hn & [Hv Hz]%andb_true_iff & ->)];
      [by apply elem_of_nil in Hk|].
    by exists o, x.
  - intros (o & x & Ho & Hn & Hv & Hz & ->). right. exists o, x. by rewrite Hv, Hz.
Qed.

Lemma NoDup_validDestinations remaining :
  NoDup (validDestinations tempBoard remaining).
Proof.
  unfold validDestinations.
  assert (NoDup (@nil string)) as Hnil by constructor. revert Hnil.
  generalize (@nil string). induction remaining as [|b l IH]; intros dests Hd; [done|].
  cbn [foldl]. by apply IH, NoDup_addCandidates.
Qed.

(** The destinations of a move, read back from their keys. *)
Lemma elem_of_parsed_destinations remaining d :
  d ∈ parseKey <$> validDestinations tempBoard remaining
  ↔ ∃ otherBlock, otherBlock ∈ remaining ∧ d ∈ neighbors otherBlock
                  ∧ isValidCoord d = true ∧ isZero (cellAt tempBoard d) = true.
Proof.
  rewrite list_elem_of_fmap. setoid_rewrite elem_of_validDestinations. split.
  - intros (k & -> & o & x & Ho & Hn & Hv & Hz & ->). rewrite parseKey_key.
    by exists o.
  - intros (o & Ho & Hn & Hv & Hz). exists (key d).
    split; [by rewrite parseKey_key|]. by exists o, d.
Qed.

(** Each destination is listed once. *)
Lemma NoDup_parsed_destinations remaining :
  NoDup (parseKey <$> validDestinations tempBoard remaining).
Proof.
  apply NoDup_fmap_2_strong; [|apply NoDup_validDestinations].
  intros k1 k2 (_ & x1 & _ & _ & _ & _ & ->)%elem_of_validDestinations
               (_ & x2 & _ & _ & _ & _ & ->)%elem_of_validDestinations.
  rewrite !parseKey_key. by intros ->.
Qed.
End destinations.

(** ** The move pushed for one block *)

Lemma movesFrom_Some board block m :
  movesFrom board block = Some m →
  let tempBoard := boardSet board block (JNum 0) in
  from m = block
  ∧ to m = parseKey <$> validDestinations tempBoard (findBlocks tempBoard)
  ∧ countConnectedBlocks tempBoard (head (findBlocks tempBoard))
    = length (findBlocks tempBoard)
  ∧ to m ≠ [].
Proof.
  unfold movesFrom, movesOn. cbn zeta. case_bool_decide as Hcount; [|done].
  case_bool_decide as Hlen; [|done]. intros [= <-]. cbn [from to].
  split_and!; [done..|]. intros Hnil%fmap_nil_inv. rewrite Hnil in Hlen. cbn in Hlen. lia.
Qed.

Lemma elem_of_findAllValidMoves board m :
  m ∈ findAllValidMoves board
  ↔ marked board (from m) ∧ movesFrom board (from m) = Some m.
Proof.
  unfold findAllValidMoves. rewrite list_elem_of_omap. setoid_rewrite elem_of_findBlocks.
  split.
  - intros (b & Hb & Hm). apply movesFrom_Some in Hm as Hf.
    destruct Hf as [-> _]. done.
  - intros [Hb Hm]. by exists (from m).
Qed.

(** ** Clearing and setting a cell *)

Section relocation.
Variable board : jsval.
Variable n : cell.
Hypothesis Hshaped : shaped board.
Hypothesis Hvalid : isValidCoord n = true.

Lemma marked_cleared x :
  marked (boardSet board n (JNum 0)) x ↔ marked board x ∧ x ≠ n.
Proof.
  unfold marked. rewrite cellAt_boardSet by done.
  destruct (decide (x = n)) as [->|Hne]; cbn; naive_solver.
Qed.

Lemma marked_set x :
  marked (boardSet board n (JNum 1)) x ↔ marked board x ∨ x = n.
Proof.
  unfold marked. rewrite cellAt_boardSet by done.
  destruct (decide (x = n)) as [->|Hne]; cbn; naive_solver.
Qed.

Lemma length_findBlocks_cleared :
  marked board n →
  S (length (findBlocks (boardSet board n (JNum 0)))) = length (findBlocks board).
Proof.
  intros Hn. rewrite <- !size_blockSet.
  assert (blockSet (boardSet board n (JNum 0)) = blockSet board ∖ {[n]}) as ->.
  { apply set_eq. intros x.
    rewrite elem_of_difference, !elem_of_blockSet, marked_cleared. set_solver. }
  apply elem_of_blockSet in Hn.
  rewrite size_difference, size_singleton by set_solver.
  assert (size (blockSet board) ≠ 0)%nat; [|lia].
  intros Hz%size_empty_inv. set_solver.
Qed.

Lemma length_findBlocks_set :
  ¬ marked board n →
  length (findBlocks (boardSet board n (JNum 1))) = S (length (findBlocks board)).
Proof.
  intros Hn. rewrite <- !size_blockSet.
  assert (blockSet (boardSet board n (JNum 1)) = blockSet board ∪ {[n]}) as ->.
  { apply set_eq. intros x.
    rewrite elem_of_union, !elem_of_blockSet, marked_set. set_solver. }
  rewrite <- elem_of_blockSet in Hn.
  rewrite size_union, size_singleton by set_solver. lia.
Qed.
End relocation.

Lemma isOne_isZero v : isZero v = true → isOne v = false.
Proof. destruct v as [| | |[]| |]; done. Qed.

(** Adding a block next to a connected shape keeps it connected. *)
Lemma validateBoard_grow tempBoard d otherBlock :
  shaped tempBoard →
  S (length (findBlocks tempBoard)) = BLOCK_COUNT →
  countConnectedBlocks tempBoard (head (findBlocks tempBoard))
  = length (findBlocks tempBoard) →
  marked tempBoard otherBlock →
  d ∈ neighbors otherBlock →
  isValidCoord d = true →
  ¬ marked tempBoard d →
  validateBoard (boardSet tempBoard d (JNum 1)) = None.
Proof.
  intros Hshaped Hlen Hcount Hother Hnb Hvalid Hd.
  set (board' := boardSet tempBoard d (JNum 1)).
  assert (length (findBlocks board') = BLOCK_COUNT) as Hlen'.
  { unfold board'. rewrite length_findBlocks_set by done. done. }
  apply validateBoard_None. split_and!; [by apply shaped_boardSet|done|].
  rewrite <- Hlen'.
  destruct (head (findBlocks tempBoard)) as [r0|] eqn:Hr0.
  2: { apply head_None in Hr0. apply elem_of_findBlocks in Hother.
       rewrite Hr0 in Hother. by apply elem_of_nil in Hother. }
  apply head_findBlocks_marked in Hr0 as Hm0.
  assert (∀ y, marked tempBoard y → reach tempBoard r0 y) as Hall
    by (by apply countConnectedBlocks_all).
  assert (∀ x, marked tempBoard x → marked board' x) as Hsub
    by (intros x Hx; apply marked_set; auto).
  assert (∀ y, marked board' y → reach board' r0 y) as Hall'.
  { intros y Hy. apply marked_set in Hy as [Hy| ->]; [| |done..].
    - eapply reach_mono; [done|by apply Hall].
    - apply (rtc_r _ otherBlock); [eapply reach_mono; [done|by apply Hall]|].
      split; [done|]. apply marked_set; auto. }
  destruct (head (findBlocks board')) as [s'|] eqn:Hs'.
  2: { apply head_None in Hs'. by rewrite Hs' in Hlen'. }
  apply head_findBlocks_marked in Hs' as Hms'.
  apply countConnectedBlocks_all; [done|]. intros y Hy.
  etrans; [|by apply Hall'].
  apply reach_sym; [by apply Hsub|by apply Hall'].
Qed.

(** ** Properties of the engine *)

(** C1. Closure: on a grid that passes [validateBoard], clearing the
    source of any enumerated move and setting any one of its destinations
    gives a grid that passes [validateBoard] again. *)
Theorem relocate_valid (board : jsval) (m : move) (d : cell) :
  validateBoard board = None →
  m ∈ findAllValidMoves board →
  d ∈ to m →
  validateBoard (relocate board (from m) d) = None.
Proof.
  intros (Hshaped & Hlen & _)%validateBoard_None
         [Hfrom (_ & Hto & Hcount & _)%movesFrom_Some]%elem_of_findAllValidMoves Hd.
  cbn zeta in *. rewrite Hto in Hd.
  apply elem_of_parsed_destinations in Hd as (o & Ho%elem_of_findBlocks & Hnb & Hv & Hz).
  pose proof Hfrom as [Hvf _].
  unfold relocate. eapply validateBoard_grow; try done.
  - by apply shaped_boardSet.
  - rewrite length_findBlocks_cleared by done. done.
  - intros [_ Hone]. apply isOne_isZero in Hz. congruence.
Qed.

(** In a connected shape of two or more blocks every block has a block
    next to it. *)
Lemma marked_neighbor board b :
  connected board → marked board b → (2 ≤ length (findBlocks board))%nat →
  ∃ y, y ∈ neighbors b ∧ marked board y ∧ y ≠ b.
Proof.
  intros Hconn Hb Hlen. rewrite <- size_blockSet in Hlen.
  destruct (size_pos_elem_of (blockSet board ∖ {[b]})) as [x Hx].
  { apply elem_of_blockSet in Hb.
    rewrite size_difference, size_singleton by set_solver. lia. }
  apply elem_of_difference in Hx as [Hx%elem_of_blockSet Hne].
  destruct (rtc_inv _ _ (Hconn b x Hb Hx)) as [->|(y & [Hy Hm] & _)]; [set_solver|].
  exists y. split_and!; [done..|].
  intros ->. by apply neighbors_irrefl in Hy.
Qed.

(** C10. On a grid that passes [validateBoard], every enumerated move
    lists its own source among its destinations: the cleared source is an
    empty in-bounds cell next to a remaining block. *)
Theorem source_among_destinations (board : jsval) (m : move) :
  validateBoard board = None →
  m ∈ findAllValidMoves board →
  from m ∈ to m.
Proof.
  intros Hvalid [Hfrom (_ & Hto & _)%movesFrom_Some]%elem_of_findAllValidMoves.
  pose proof (validateBoard_connected _ Hvalid) as Hconn.
  apply validateBoard_None in Hvalid as (Hshaped & Hlen & _).
  pose proof Hfrom as [Hvf _].
  destruct (marked_neighbor board (from m)) as (y & Hy & Hm & Hne); [done..| |].
  { rewrite Hlen. unfold BLOCK_COUNT. lia. }
  cbn zeta in Hto. rewrite Hto. apply elem_of_parsed_destinations.
  exists y. split_and!.
  - apply elem_of_findBlocks, marked_cleared; done.
  - by apply neighbors_sym.
  - done.
  - rewrite cellAt_boardSet, decide_True by done. done.
Qed.

(** C3, as the code has it.  On a grid that passes [validateBoard] the
    source of every enumerated move is a block of the grid, and every
    destination other than the source itself is an in-bounds cell holding
    [0] in the grid, hence not a block. *)
Theorem moves_source_marked_destinations_empty (board : jsval) (m : move) :
  validateBoard board = None →
  m ∈ findAllValidMoves board →
  marked board (from m)
  ∧ ∀ d, d ∈ to m → d ≠ from m →
         isValidCoord d = true ∧ isZero (cellAt board d) = true ∧ ¬ marked board d.
Proof.
  intros (Hshaped & _)%validateBoard_None
         [Hfrom (_ & Hto & _)%movesFrom_Some]%elem_of_findAllValidMoves.
  split; [done|]. intros d Hd Hne. pose proof Hfrom as [Hvf _].
  cbn zeta in Hto. rewrite Hto in Hd.
  apply elem_of_parsed_destinations in Hd as (o & _ & _ & Hv & Hz).
  rewrite cellAt_boardSet, decide_False in Hz by done.
  split_and!; [done..|]. intros [_ Hone]. apply isOne_isZero in Hz. congruence.
Qed.

(** C6. On a grid that passes [validateBoard], an articulation cell is
    the source of no enumerated move. *)
Theorem articulation_no_move (board : jsval) (b : cell) :
  validateBoard board = None →
  articulation board b →
  ∀ m, m ∈ findAllValidMoves board → from m ≠ b.
Proof.
  intros (Hshaped & _)%validateBoard_None (Hb & x & y & Hx & Hxb & Hy & Hyb & Hsep) m
         [Hfrom (_ & _ & Hcount & _)%movesFrom_Some]%elem_of_findAllValidMoves <-.
  cbn zeta in Hcount. pose proof Hb as [Hvb _].
  set (tempBoard := boardSet board (from m) (JNum 0)) in *.
  assert (marked tempBoard x) as Hx' by (by apply marked_cleared).
  assert (marked tempBoard y) as Hy' by (by apply marked_cleared).
  destruct (head (findBlocks tempBoard)) as [r0|] eqn:Hr0.
  2: { apply head_None in Hr0. apply elem_of_findBlocks in Hx'.
       rewrite Hr0 in Hx'. by apply elem_of_nil in Hx'. }
  apply head_findBlocks_marked in Hr0 as Hm0.
  pose proof (proj1 (countConnectedBlocks_all tempBoard r0 Hm0) Hcount) as Hall.
  apply Hsep. eapply rtc_subrel; [|by apply (connected_from tempBoard r0 Hm0 Hall x y)].
  intros u v [Hn Hv%marked_cleared]; [|done..]. split; [done|]. apply Hv.
Qed.

(** C7. A grid that passes [validateBoard] has exactly [BLOCK_COUNT]
    marked cells, and a 10x10 grid whose marked cells number 9 is rejected
    with the wrong-block-count message. *)
Theorem valid_block_count (board : jsval) :
  (validateBoard board = None → length (findBlocks board) = BLOCK_COUNT)
  ∧ (∀ X : gset cell,
       shaped board → (∀ n, n ∈ X ↔ marked board n) → size X = 9%nat →
       validateBoard board = Some WrongBlockCount).
Proof.
  split.
  - by intros (_ & Hlen & _)%validateBoard_None.
  - intros X Hshaped HX Hsize. apply validateBoard_WrongBlockCount.
    split; [done|]. rewrite <- size_blockSet.
    assert (blockSet board = X) as ->.
    { apply set_eq. intros n. by rewrite elem_of_blockSet, HX. }
    rewrite Hsize. done.
Qed.

(** C8. A 10x10 grid with exactly [BLOCK_COUNT] marked cells that do not
    all lie in one 4-connected component is rejected with the
    disconnected message (whatever its unmarked cells hold). *)
Theorem disconnected_rejected (board : jsval) (X : gset cell) :
  shaped board →
  (∀ n, n ∈ X ↔ marked board n) →
  size X = BLOCK_COUNT →
  ¬ connected board →
  validateBoard board = Some Disconnected.
Proof.
  intros Hshaped HX Hsize Hnc. apply validateBoard_Disconnected.
  assert (length (findBlocks board) = BLOCK_COUNT) as Hlen.
  { rewrite <- size_blockSet, <- Hsize. f_equal.
    apply set_eq. intros n. by rewrite elem_of_blockSet, HX. }
  split_and!; [done..|]. intros Hcount. apply Hnc.
  destruct (head (findBlocks board)) as [s|] eqn:Hs; [|done].
  apply head_findBlocks_marked in Hs as Hm.
  apply (connected_from board s Hm), countConnectedBlocks_all; [done|congruence].
Qed.

(** C4, as the code has it.  The traversal always ends (within [bfsFuel]
    rounds).  Without a start node the count is 0.  With one, the count is
    the size of the set holding the start cell itself, marked or not, and
    every block reached from it through blocks; when the start is a block
    these are exactly the marked cells edge-reachable from it. *)
Theorem countConnectedBlocks_spec (board : jsval) :
  shaped board →
  (∀ start fuel, (bfsFuel ≤ fuel)%nat →
     countConnectedBlocksFuel fuel board start
     = Some (countConnectedBlocks board start))
  ∧ countConnectedBlocks board None = 0%nat
  ∧ ∀ s, ∃ X : gset cell,
      countConnectedBlocks board (Some s) = size X
      ∧ s ∈ X
      ∧ (∀ x, x ∈ X ↔ reach board s x)
      ∧ (∀ x, x ∈ X → x ≠ s → marked board x)
      ∧ (marked board s → ∀ x, x ∈ X → marked board x).
Proof.
  intros _. split_and!; [apply countConnectedBlocksFuel_enough|done|]. intros s.
  destruct (countConnectedBlocks_component board s) as (X & HX & Hc).
  exists X. split_and!; [done| |done| |].
  - apply HX, rtc_refl.
  - intros x Hx%HX Hne. apply rtc_inv_r in Hx as [?|(y & _ & _ & Hm)]; done.
  - intros Hs x Hx%HX. by eapply reach_marked.
Qed.

(** ** Concrete scenarios *)

Lemma lineBoard_valid : validateBoard lineBoard = None.
Proof. vm_compute. reflexivity. Qed.

Lemma lineBoard_blocks :
  findBlocks lineBoard
  = [(0, 0); (0, 1); (0, 2); (0, 3); (0, 4); (0, 5); (0, 6); (0, 7); (0, 8); (0, 9)].
Proof. vm_compute. reflexivity. Qed.

Lemma lineBoard_moves : findAllValidMoves lineBoard = lineMoves.
Proof. vm_compute. reflexivity. Qed.

Lemma lineBoard_marked y : marked lineBoard y → y.1 = 0 ∧ 0 ≤ y.2 < 10.
Proof.
  intros Hy%elem_of_findBlocks. rewrite lineBoard_blocks in Hy.
  repeat (apply elem_of_cons in Hy as [->|Hy]; [cbn; lia|]).
  by apply elem_of_nil in Hy.
Qed.

Lemma twoIslands_blocks :
  findBlocks twoIslands
  = [(0, 0); (0, 1); (0, 2); (0, 3); (0, 4); (2, 0); (2, 1); (2, 2); (2, 3); (2, 4)].
Proof. vm_compute. reflexivity. Qed.

Lemma shaped_dec board : shapeOk board = true → shaped board.
Proof. apply shapeOk_spec. Qed.

Lemma marked_dec board n :
  isValidCoord n && isOne (cellAt board n) = true → marked board n.
Proof. intros [??]%andb_true_iff. done. Qed.

Lemma elem_of_neighbors x y :
  y ∈ neighbors x →
  (y.1 = x.1 - 1 ∧ y.2 = x.2) ∨ (y.1 = x.1 + 1 ∧ y.2 = x.2)
  ∨ (y.1 = x.1 ∧ y.2 = x.2 - 1) ∨ (y.1 = x.1 ∧ y.2 = x.2 + 1).
Proof.
  unfold neighbors. rewrite !elem_of_cons, elem_of_nil.
  intros [->|[->|[->|[->|[]]]]]; cbn; lia.
Qed.

Lemma twoIslands_not_connected : ¬ connected twoIslands.
Proof.
  intros Hconn.
  assert (∀ x, reach twoIslands (0, 0) x → x.1 = 0) as Hinv.
  { apply rtc_ind_r; [done|]. intros y z _ [Hn Hz%elem_of_findBlocks] Hy.
    apply elem_of_neighbors in Hn. rewrite twoIslands_blocks in Hz.
    repeat (apply elem_of_cons in Hz as [->|Hz]; [cbn in *; lia|]).
    by apply elem_of_nil in Hz. }
  specialize (Hinv (2, 0)). cbn in Hinv.
  assert (2 = 0) by (apply Hinv, Hconn; apply marked_dec; vm_compute; reflexivity).
  done.
Qed.

Lemma lineBoard_articulation : articulation lineBoard (0, 5).
Proof.
  split; [apply marked_dec; vm_compute; reflexivity|].
  exists (0, 0), (0, 9). split_and!; try done.
  assert (∀ x, rtc (edgeWithout lineBoard (0, 5)) (0, 0) x → x.1 = 0 ∧ x.2 < 5) as Hinv.
  { apply rtc_ind_r; [done|]. intros y z _ (Hn & Hz%lineBoard_marked & Hne) Hy.
    apply elem_of_neighbors in Hn. split; [lia|].
    destruct (decide (z.2 = 5)) as [Heq|]; [|lia].
    exfalso. apply Hne. destruct z as [zr zc]; cbn in *. f_equal; lia. }
  intros Hr. apply Hinv in Hr. cbn in Hr. lia.
Qed.

Lemma lineMove0_enumerated : lineMove0 ∈ findAllValidMoves lineBoard.
Proof. rewrite lineBoard_moves. apply list_elem_of_here. Qed.

Lemma relocate_valid_witness :
  validateBoard (relocate lineBoard (from lineMove0) (1, 1)) = None.
Proof.
  apply (relocate_valid lineBoard lineMove0 (1, 1)).
  - exact lineBoard_valid.
  - exact lineMove0_enumerated.
  - apply list_elem_of_here.
Defined.

Lemma source_among_destinations_witness : from lineMove0 ∈ to lineMove0.
Proof.
  apply (source_among_destinations lineBoard lineMove0).
  - exact lineBoard_valid.
  - exact lineMove0_enumerated.
Defined.

(** C3 as stated fails on the line: the move of (0,0) lists (0,0), which
    is marked. *)
Lemma destination_marked_counterexample :
  validateBoard lineBoard = None
  ∧ lineMove0 ∈ findAllValidMoves lineBoard
  ∧ (0, 0) ∈ to lineMove0
  ∧ marked lineBoard (0, 0).
Proof.
  split_and!.
  - exact lineBoard_valid.
  - exact lineMove0_enumerated.
  - apply list_elem_of_further, list_elem_of_here.
  - apply marked_dec. vm_compute. reflexivity.
Qed.

Lemma moves_source_marked_destinations_empty_witness :
  marked lineBoard (from lineMove0)
  ∧ ∀ d, d ∈ to lineMove0 → d ≠ from lineMove0 →
         isValidCoord d = true ∧ isZero (cellAt lineBoard d) = true
         ∧ ¬ marked lineBoard d.
Proof.
  apply (moves_source_marked_destinations_empty lineBoard lineMove0).
  - exact lineBoard_valid.
  - exact lineMove0_enumerated.
Defined.

Lemma articulation_no_move_witness :
  articulation lineBoard (0, 5)
  ∧ lineMove0 ∈ findAllValidMoves lineBoard
  ∧ from lineMove0 ≠ (0, 5).
Proof.
  split_and!.
  - exact lineBoard_articulation.
  - exact lineMove0_enumerated.
  - apply (articulation_no_move lineBoard (0, 5)).
    + exact lineBoard_valid.
    + exact lineBoard_articulation.
    + exact lineMove0_enumerated.
Defined.

Lemma valid_block_count_witness :
  length (findBlocks lineBoard) = BLOCK_COUNT
  ∧ validateBoard nineBoard = Some WrongBlockCount.
Proof.
  split.
  - apply (proj1 (valid_block_count lineBoard)). exact lineBoard_valid.
  - apply (proj2 (valid_block_count nineBoard) (blockSet nineBoard)).
    + apply shaped_dec. vm_compute. reflexivity.
    + apply elem_of_blockSet.
    + vm_compute. reflexivity.
Defined.

Lemma disconnected_rejected_witness :
  validateBoard twoIslands = Some Disconnected.
Proof.
  apply (disconnected_rejected twoIslands (blockSet twoIslands)).
  - apply shaped_dec. vm_compute. reflexivity.
  - apply elem_of_blockSet.
  - vm_compute. reflexivity.
  - exact twoIslands_not_connected.
Defined.

(** C4 as stated fails on the empty board: from the unmarked cell (0,0)
    the count is 1, not 0. *)
Lemma unmarked_start_counterexample :
  shaped emptyBoard
  ∧ ¬ marked emptyBoard (0, 0)
  ∧ countConnectedBlocks emptyBoard (Some (0, 0)) = 1%nat.
Proof.
  split_and!.
  - apply shaped_dec. vm_compute. reflexivity.
  - intros [_ H]. vm_compute in H. discriminate.
  - vm_compute. reflexivity.
Qed.

Lemma countConnectedBlocks_spec_witness :
  (∀ start fuel, (bfsFuel ≤ fuel)%nat →
     countConnectedBlocksFuel fuel lineBoard start
     = Some (countConnectedBlocks lineBoard start))
  ∧ countConnectedBlocks lineBoard None = 0%nat
  ∧ ∀ s, ∃ X : gset cell,
      countConnectedBlocks lineBoard (Some s) = size X
      ∧ s ∈ X
      ∧ (∀ x, x ∈ X ↔ reach lineBoard s x)
      ∧ (∀ x, x ∈ X → x ≠ s → marked lineBoard x)
      ∧ (marked lineBoard s → ∀ x, x ∈ X → marked lineBoard x).
Proof.
  apply (countConnectedBlocks_spec lineBoard).
  apply shaped_dec. vm_compute. reflexivity.
Defined.

(** C2: the shape test does not look at the cells.  The line with a 2 at
    (5,5) is accepted. *)
Theorem validateBoard_accepts_non_binary :
  shaped lineWithTwo
  ∧ cellAt lineWithTwo (5, 5) = JNum 2
  ∧ validateBoard lineWithTwo = None.
Proof.
  split_and!.
  - apply shaped_dec. vm_compute. reflexivity.
  - vm_compute. reflexivity.
  - vm_compute. reflexivity.
Qed.

(** C5 as stated fails: (1,0) is no destination of the move of (0,0), and
    (1,9) none of the move of (0,9). *)
Lemma line_corner_counterexample :
  ¬ (∃ m, m ∈ findAllValidMoves lineBoard ∧ from m = (0, 0) ∧ (1, 0) ∈ to m)
  ∧ ¬ (∃ m, m ∈ findAllValidMoves lineBoard ∧ from m = (0, 9) ∧ (1, 9) ∈ to m).
Proof.
  rewrite lineBoard_moves. unfold lineMoves.
  split; intros (m & Hm & Hfrom & Hto);
    repeat (apply elem_of_cons in Hm as [->|Hm]); try by apply elem_of_nil in Hm.
  all: cbn in Hfrom, Hto; try discriminate.
  all: repeat (apply elem_of_cons in Hto as [[=]|Hto]); by apply elem_of_nil in Hto.
Qed.

(** C5, as the code has it.  The line passes [validateBoard], and the
    enumerated moves are exactly one for each endpoint, none for an
    interior cell: the move of (0,0) goes to (0,0) itself or to one of
    (1,1) .. (1,9), the move of (0,9) to (0,9) itself or to one of
    (1,0) .. (1,8). *)
Theorem line_scenario :
  validateBoard lineBoard = None
  ∧ findAllValidMoves lineBoard = [lineMove0; lineMove9]
  ∧ from <$> findAllValidMoves lineBoard = [(0, 0); (0, 9)].
Proof. vm_compute. done. Qed.

(** ** Writes stay inside the working copy *)

Lemma extends_refl h : extends h h.
Proof. by intros l _. Qed.

Lemma extends_trans h1 h2 h3 : extends h1 h2 → extends h2 h3 → extends h1 h3.
Proof.
  intros H12 H23 l Hl. rewrite <- (H12 l Hl). apply H23. by rewrite (H12 l Hl).
Qed.

Lemma extends_None h h' l : extends h h' → h' !! l = None → h !! l = None.
Proof.
  intros Hext Hl. destruct (h !! l) eqn:E; [|done].
  rewrite <- (Hext l), Hl in E; [done|by rewrite E].
Qed.

Lemma alloc_fresh h elems : h !! (alloc h elems).1 = None.
Proof. apply not_elem_of_dom, is_fresh. Qed.

Lemma alloc_lookup h elems : (alloc h elems).2 !! (alloc h elems).1 = Some elems.
Proof. apply lookup_insert_eq. Qed.

Lemma alloc_extends h elems : extends h (alloc h elems).2.
Proof.
  intros l Hl. cbn. apply lookup_insert_ne. intros <-.
  pose proof (alloc_fresh h elems) as Hf. cbn in Hf.
  rewrite Hf in Hl. by destruct Hl.
Qed.

Lemma copyRows_extends rows h :
  extends h (copyRows h rows).2 ∧ freshRefs h (copyRows h rows).1.
Proof.
  revert h. induction rows as [|row rest IH]; intros h; cbn [copyRows].
  - split; [apply extends_refl|constructor].
  - pose proof (alloc_extends h (spread h row)) as Hext.
    pose proof (alloc_fresh h (spread h row)) as Hfresh.
    destruct (alloc h (spread h row)) as [l h1]. cbn [fst snd] in *.
    destruct (IH h1) as [Hext' Hrefs]. destruct (copyRows h1 rest) as [rest' h2].
    cbn [fst snd] in *. split; [by eapply extends_trans|].
    constructor; [by exists l|].
    eapply Forall_impl; [done|]. intros v (l' & -> & Hl').
    exists l'. split; [done|by eapply extends_None].
Qed.

Lemma copyBoard_extends h board :
  extends h (copyBoard h board).2
  ∧ ∃ l rows', (copyBoard h board).1 = VRef l
      ∧ h !! l = None
      ∧ (copyBoard h board).2 !! l = Some rows'
      ∧ freshRefs h rows'.
Proof.
  unfold copyBoard.
  destruct (copyRows_extends (spread h board) h) as [Hext Hrefs].
  destruct (copyRows h (spread h board)) as [rows' h1]. cbn [fst snd] in *.
  pose proof (alloc_extends h1 rows') as Hext'.
  pose proof (alloc_fresh h1 rows') as Hfresh.
  pose proof (alloc_lookup h1 rows') as Hlook.
  destruct (alloc h1 rows') as [l h2]. cbn [fst snd] in *.
  split; [by eapply extends_trans|].
  exists l, rows'. split_and!; [done|by eapply extends_None|done..].
Qed.

Lemma storeIndex_other h a i v l :
  a ≠ VRef l → storeIndex h a i v !! l = h !! l.
Proof.
  intros Hne. unfold storeIndex. destruct a as [| | | | |l']; try done.
  destruct (h !! l') eqn:E; [|done].
  destruct (0 <=? i); [|done].
  case_bool_decide; apply lookup_insert_ne; congruence.
Qed.

(** A write through a reference to an object that [h] does not hold
    leaves the objects of [h] alone. *)
Lemma storeIndex_extends h h1 a i v :
  extends h h1 →
  (∀ l, a = VRef l → h !! l = None) →
  extends h (storeIndex h1 a i v).
Proof.
  intros Hext Ha l Hl. rewrite storeIndex_other; [by apply Hext|].
  intros ->. rewrite (Ha l eq_refl) in Hl. by destruct Hl.
Qed.

Lemma loadIndex_fresh h h1 a i elems :
  readArray h1 a = Some elems → freshRefs h elems →
  ∀ l, loadIndex h1 a i = VRef l → h !! l = None.
Proof.
  intros Ha Hrefs l. unfold loadIndex. rewrite Ha.
  destruct (0 <=? i); [|done].
  destruct (elems !! Z.to_nat i) as [v|] eqn:E; [|done]. cbn. intros ->.
  unfold freshRefs in Hrefs. rewrite Forall_forall in Hrefs.
  destruct (Hrefs (VRef l)) as (l' & [= <-] & Hl'); [|done].
  by eapply list_elem_of_lookup_2.
Qed.

Lemma movesFromH_extends h board block : extends h (movesFromH h board block).2.
Proof.
  unfold movesFromH.
  destruct (copyBoard_extends h board) as (Hext & l & rows' & Ht & Hl & Hrows & Hrefs).
  destruct (copyBoard h board) as [tempBoard h1]. cbn [fst snd] in *. subst tempBoard.
  apply storeIndex_extends; [done|].
  by apply (loadIndex_fresh h h1 (VRef l) block.1 rows').
Qed.

Lemma findAllValidMovesH_extends h board :
  extends h (findAllValidMovesH h board).2.
Proof.
  unfold findAllValidMovesH.
  generalize (findBlocks (snapshot h board)). intros blocks.
  assert (extends h (@nil move, h).2) as Hst by apply extends_refl.
  revert Hst. generalize (@nil move, h).
  induction blocks as [|block blocks IH]; intros st Hst; [done|].
  cbn [foldl]. apply IH.
  pose proof (movesFromH_extends st.2 board block) as Hext.
  destruct (movesFromH st.2 board block) as [m h']. cbn [fst snd] in *.
  by eapply extends_trans.
Qed.

(** A board that shows as 10x10 is made of objects the store holds. *)
Lemma snapshot_extends h h' board :
  shaped (snapshot h board) → extends h h' → snapshot h' board = snapshot h board.
Proof.
  intros (rows & Hsnap & Hlen & Hrows) Hext. unfold snapshot in *.
  destruct (readArray h board) as [vrows|] eqn:Hb.
  2: { destruct board; cbn in Hsnap; inversion Hsnap; subst. done. }
  destruct board as [| | | | |lb]; try done. cbn [readArray] in *.
  rewrite (Hext lb) by (by rewrite Hb). rewrite Hb. f_equal.
  inversion Hsnap; subst rows. clear Hsnap.
  apply Forall_fmap_ext. rewrite Forall_fmap in Hrows.
  eapply Forall_impl; [done|]. intros row (l & Hrow & Hl). cbn in Hrow.
  unfold snapshotRow in *.
  destruct (readArray h row) as [cells|] eqn:Hr.
  2: { destruct row; cbn in Hrow; inversion Hrow; subst. done. }
  destruct row as [| | | | |lr]; try done. cbn [readArray] in *.
  rewrite (Hext lr) by (by rewrite Hr). by rewrite Hr.
Qed.

(** C9. [validateBoard] and [findAllValidMoves] leave the caller's grid
    as it was.  [validateBoard] writes nothing, on any board.  After
    [findAllValidMoves] on a board that passes [validateBoard], every
    object the store held before the call is unchanged, and so is every
    cell of the board: the removal test writes to the fresh rows of the
    working copy only. *)
Theorem input_grid_unchanged (h : heap) (board : val) :
  (validateBoardH h board).2 = h
  ∧ (validateBoard (snapshot h board) = None →
     extends h (findAllValidMovesH h board).2
     ∧ ∀ n, cellAt (snapshot (findAllValidMovesH h board).2 board) n
            = cellAt (snapshot h board) n).
Proof.
  split; [done|]. intros (Hshaped & _)%validateBoard_None. split.
  - apply findAllValidMovesH_extends.
  - intros n. rewrite (snapshot_extends h); [done..|].
    apply findAllValidMovesH_extends.
Qed.

(** ** The store model computes the moves of the value model *)

Lemma readArray_extends h h' v :
  extends h h' → is_Some (readArray h v) → readArray h' v = readArray h v.
Proof. intros Hext Hv. destruct v; try by destruct Hv. by apply Hext. Qed.

Lemma copyRows_spec rows h :
  Forall (λ row, is_Some (readArray h row)) rows →
  ∃ locs : list loc,
    (copyRows h rows).1 = VRef <$> locs
    ∧ NoDup locs
    ∧ length locs = length rows
    ∧ (∀ l, l ∈ locs → h !! l = None)
    ∧ (∀ i l row, locs !! i = Some l → rows !! i = Some row →
                  (copyRows h rows).2 !! l = Some (spread h row)).
Proof.
  revert h. induction rows as [|row rest IH]; intros h Hrows; cbn [copyRows].
  - exists []. split_and!; try done; [constructor|..].
    + intros l Hl. by apply elem_of_nil in Hl.
  - apply Forall_cons in Hrows as [Hrow Hrest].
    pose proof (alloc_extends h (spread h row)) as Hext.
    pose proof (alloc_fresh h (spread h row)) as Hfresh.
    pose proof (alloc_lookup h (spread h row)) as Hlook.
    destruct (alloc h (spread h row)) as [l h1]. cbn [fst snd] in *.
    destruct (IH h1) as (locs & Hlocs & Hnd & Hlen & Hnone & Hsome).
    { eapply Forall_impl; [done|]. intros v Hv. by rewrite (readArray_extends h). }
    pose proof (proj1 (copyRows_extends rest h1)) as Hext'.
    destruct (copyRows h1 rest) as [rest' h2]. cbn [fst snd] in *.
    exists (l :: locs). split_and!.
    + by rewrite Hlocs.
    + constructor; [|done]. intros Hl%Hnone. congruence.
    + cbn. by rewrite Hlen.
    + intros l' [->|Hl']%elem_of_cons; [done|].
      eapply extends_None; [done|by apply Hnone].
    + intros [|i] l' row' Hl' Hrow'; cbn in Hl', Hrow'.
      * inversion Hl'; inversion Hrow'; subst.
        rewrite (Hext' l') by (by rewrite Hlook). done.
      * rewrite (Hsome i l' row') by done. unfold spread. do 2 f_equal.
        apply readArray_extends; [done|].
        rewrite Forall_forall in Hrest. apply Hrest.
        by eapply list_elem_of_lookup_2.
Qed.

(** What [snapshot] shows of a 10x10 board sits in the store. *)
Lemma shaped_snapshot h board :
  shaped (snapshot h board) →
  ∃ lb rows, board = VRef lb ∧ h !! lb = Some rows
    ∧ length rows = Z.to_nat BOARD_SIZE
    ∧ Forall (λ row, ∃ cells, readArray h row = Some cells
                              ∧ length cells = Z.to_nat BOARD_SIZE) rows.
Proof.
  intros (jrows & Hsnap & Hlen & Hrows). unfold snapshot in Hsnap.
  destruct (readArray h board) as [rows|] eqn:Hb.
  2: { destruct board; cbn in Hsnap; inversion Hsnap; subst. done. }
  destruct board as [| | | | |lb]; try done. cbn [readArray] in Hb.
  inversion Hsnap; subst jrows. clear Hsnap.
  exists lb, rows. split_and!; [done..|by rewrite length_fmap in Hlen|].
  rewrite Forall_fmap in Hrows. eapply Forall_impl; [done|].
  intros row (l & Hrow & Hl). cbn in Hrow. unfold snapshotRow in Hrow.
  destruct (readArray h row) as [cells|] eqn:Hr.
  2: { destruct row; cbn in Hrow; inversion Hrow; subst. done. }
  exists cells. split; [done|]. inversion Hrow; subst l.
  by rewrite length_fmap in Hl.
Qed.

(** The working copy, once [block] is cleared on it, shows as the value
    model's [boardSet]. *)
Lemma snapshot_workingCopy h board block :
  shaped (snapshot h board) → isValidCoord block = true →
  let '(tempBoard, h1) := copyBoard h board in
  snapshot (storeIndex h1 (loadIndex h1 tempBoard block.1) block.2 (VNum 0)) tempBoard
  = boardSet (snapshot h board) block (JNum 0).
Proof.
  intros (lb & rows & -> & Hb & Hlen & Hrows)%shaped_snapshot
         [Hr Hc]%isValidCoord_spec.
  destruct block as [r c]. cbn [fst snd] in *.
  assert (spread h (VRef lb) = rows) as Hsp by (unfold spread; cbn; by rewrite Hb).
  unfold copyBoard. rewrite Hsp.
  destruct (copyRows_spec rows h) as (locs & Hlocs & Hnd & Hllen & Hnone & Hsome).
  { eapply Forall_impl; [done|]. intros row (cells & -> & _). done. }
  pose proof (proj1 (copyRows_extends rows h)) as Hext.
  destruct (copyRows h rows) as [rows' h1]. cbn [fst snd] in *. subst rows'.
  pose proof (alloc_fresh h1 (VRef <$> locs)) as Hfresh.
  destruct (alloc h1 (VRef <$> locs)) as [lt h2] eqn:Halloc.
  injection Halloc as <- <-. cbn [fst snd] in Hfresh.
  set (lt := fresh (dom h1)) in *.
  destruct (lookup_lt_is_Some_2 rows (Z.to_nat r)) as [row Hrow]; [lia|].
  destruct (lookup_lt_is_Some_2 locs (Z.to_nat r)) as [lr Hlr]; [lia|].
  pose proof (Hsome _ _ _ Hlr Hrow) as Hh1.
  rewrite Forall_forall in Hrows.
  destruct (Hrows row) as (cells & Hcells & Hclen); [by eapply list_elem_of_lookup_2|].
  assert (spread h row = cells) as Hsr by (unfold spread; by rewrite Hcells).
  rewrite Hsr in Hh1.
  assert (lt ≠ lr) as Hne by (intros Heq; rewrite Heq in Hfresh; congruence).
  unfold loadIndex. cbn [readArray]. rewrite lookup_insert_eq.
  rewrite (proj2 (Z.leb_le 0 r)) by lia.
  rewrite list_lookup_fmap, Hlr. cbn [fmap option_fmap option_map from_option id].
  unfold storeIndex. rewrite lookup_insert_ne, Hh1 by done.
  rewrite (proj2 (Z.leb_le 0 c)) by lia.
  rewrite bool_decide_eq_true_2 by lia.
  unfold snapshot at 1. cbn [readArray].
  rewrite lookup_insert_ne, lookup_insert_eq by done.
  unfold boardSet, snapshot. cbn [readArray fst snd]. rewrite Hb.
  unfold index at 1. rewrite (proj2 (Z.leb_le 0 r)) by lia.
  rewrite list_lookup_fmap, Hrow. cbn [fmap option_fmap option_map from_option id].
  unfold snapshotRow at 3. rewrite Hcells.
  unfold arraySet. rewrite (proj2 (Z.leb_le 0 r)), (proj2 (Z.leb_le 0 c)) by lia.
  rewrite !bool_decide_eq_true_2 by (rewrite ?length_fmap; lia).
  f_equal. apply list_eq. intros i.
  rewrite list_lookup_fmap, list_lookup_fmap.
  destruct (decide (i = Z.to_nat r)) as [->|Hi].
  - rewrite Hlr, list_lookup_insert_eq by (rewrite length_fmap; lia).
    cbn. unfold snapshotRow. cbn [readArray].
    rewrite lookup_insert_eq. by rewrite list_fmap_insert.
  - rewrite list_lookup_insert_ne, list_lookup_fmap by done.
    destruct (locs !! i) as [li|] eqn:Hli.
    + destruct (lookup_lt_is_Some_2 rows i) as [rowi Hrowi].
      { apply lookup_lt_Some in Hli. lia. }
      rewrite Hrowi. cbn. f_equal. unfold snapshotRow at 1. cbn [readArray].
      assert (li ≠ lr) as Hne'.
      { intros ->. apply Hi. eapply NoDup_lookup; done. }
      assert (lt ≠ li) as Hne''.
      { intros Heq. rewrite Heq in Hfresh.
        rewrite (Hsome _ _ _ Hli Hrowi) in Hfresh. done. }
      rewrite !lookup_insert_ne by done.
      rewrite (Hsome _ _ _ Hli Hrowi).
      destruct (Hrows rowi) as (cellsi & Hcellsi & _);
        [by eapply list_elem_of_lookup_2|].
      unfold spread, snapshotRow. by rewrite Hcellsi.
    + apply lookup_ge_None in Hli. rewrite lookup_ge_None_2 by lia. done.
Qed.

Lemma movesFromH_moves h board block :
  shaped (snapshot h board) → isValidCoord block = true →
  (movesFromH h board block).1 = movesFrom (snapshot h board) block.
Proof.
  intros Hshaped Hvalid. unfold movesFromH, movesFrom.
  pose proof (snapshot_workingCopy h board block Hshaped Hvalid) as Hsnap.
  destruct (copyBoard h board) as [tempBoard h1]. cbn [fst]. by rewrite Hsnap.
Qed.

(** The moves computed on the store are those computed on the value of
    the board. *)
Lemma findAllValidMovesH_moves h board :
  shaped (snapshot h board) →
  (findAllValidMovesH h board).1 = findAllValidMoves (snapshot h board).
Proof.
  intros Hshaped. unfold findAllValidMovesH, findAllValidMoves.
  assert (Forall (λ b, isValidCoord b = true) (findBlocks (snapshot h board))) as Hblocks.
  { apply Forall_forall. by intros b [Hv _]%elem_of_findBlocks. }
  revert Hblocks. generalize (findBlocks (snapshot h board)). intros blocks Hblocks.
  assert (∀ st : list move * heap,
            extends h st.2 →
            (foldl (λ st block,
                      let '(m, h') := movesFromH st.2 board block in
                      (st.1 ++ option_list m, h')) st blocks).1
            = st.1 ++ omap (movesFrom (snapshot h board)) blocks) as Hgen.
  { induction Hblocks as [|block blocks Hv Hblocks IH]; intros st Hst; cbn [foldl].
    - cbn. by rewrite app_nil_r.
    - pose proof (movesFromH_extends st.2 board block) as Hext.
      pose proof (movesFromH_moves st.2 board block) as Hm.
      rewrite (snapshot_extends h st.2) in Hm by done.
      specialize (Hm Hshaped Hv).
      destruct (movesFromH st.2 board block) as [m h']. cbn [fst snd] in *.
      rewrite IH by (cbn; by eapply extends_trans). cbn [fst]. subst m.
      rewrite <- app_assoc. f_equal. cbn [omap list_omap].
      by destruct (movesFrom (snapshot h board) block). }
  apply (Hgen ([], h)), extends_refl.
Qed.

(** ** The line in the store *)

Lemma lineHeap_snapshot : snapshot lineHeap lineRef = lineBoard.
Proof. vm_compute. reflexivity. Qed.

Lemma lineHeap_moves : (findAllValidMovesH lineHeap lineRef).1 = lineMoves.
Proof. vm_compute. reflexivity. Qed.

Lemma input_grid_unchanged_witness :
  (validateBoardH lineHeap lineRef).2 = lineHeap
  ∧ extends lineHeap (findAllValidMovesH lineHeap lineRef).2
  ∧ ∀ n, cellAt (snapshot (findAllValidMovesH lineHeap lineRef).2 lineRef) n
         = cellAt (snapshot lineHeap lineRef) n.
Proof.
  split.
  - apply (proj1 (input_grid_unchanged lineHeap lineRef)).
  - apply (proj2 (input_grid_unchanged lineHeap lineRef)).
    vm_compute. reflexivity.
Defined.

(** ** Which blocks move, and where to *)

Lemma isOne_JNum v : isOne v = true → v = JNum 1.
Proof. destruct v as [| | |[|[]|]| |]; done. Qed.

Lemma isZero_JNum v : isZero v = true → v = JNum 0.
Proof. destruct v as [| | |[]| |]; done. Qed.

(** On the working copy the traversal steps are the steps that avoid the
    cleared block. *)
Lemma reach_cleared board b x y :
  shaped board → isValidCoord b = true →
  reach (boardSet board b (JNum 0)) x y ↔ rtc (edgeWithout board b) x y.
Proof.
  intros Hshaped Hvalid. unfold reach. split; apply rtc_subrel; intros u v.
  - intros [Hn Hv%marked_cleared]; [|done..]. split; [done|]. apply Hv.
  - intros (Hn & Hm & Hne). split; [done|]. by apply marked_cleared.
Qed.

(** The count test of the loop body holds exactly when the remaining
    blocks are connected. *)
Lemma count_test_remainingConnected board b :
  shaped board → marked board b →
  let tempBoard := boardSet board b (JNum 0) in
  countConnectedBlocks tempBoard (head (findBlocks tempBoard))
  = length (findBlocks tempBoard)
  ↔ remainingConnected board b.
Proof.
  intros Hshaped Hb tempBoard. pose proof Hb as [Hvb _].
  destruct (head (findBlocks tempBoard)) as [r0|] eqn:Hr0.
  - apply head_findBlocks_marked in Hr0 as Hm0.
    rewrite countConnectedBlocks_all by done. split.
    + intros Hall x y Hx Hxb Hy Hyb. apply reach_cleared; [done..|].
      apply (connected_from tempBoard r0 Hm0 Hall); by apply marked_cleared.
    + intros Hconn y Hy. apply reach_cleared; [done..|].
      apply marked_cleared in Hm0 as [? ?]; [|done..].
      apply marked_cleared in Hy as [? ?]; [|done..]. by apply Hconn.
  - apply head_None in Hr0. rewrite Hr0. split; [|done].
    intros _ x y Hx Hxb. exfalso.
    assert (x ∈ findBlocks tempBoard) as Hin
      by (by apply elem_of_findBlocks, marked_cleared).
    rewrite Hr0 in Hin. by apply elem_of_nil in Hin.
Qed.

(** The destinations of the move of [b], in terms of the board itself. *)
Lemma elem_of_destinations_board board b d :
  shaped board → marked board b →
  d ∈ parseKey <$> validDestinations (boardSet board b (JNum 0))
                     (findBlocks (boardSet board b (JNum 0)))
  ↔ isValidCoord d = true
    ∧ (d = b ∨ isZero (cellAt board d) = true)
    ∧ ∃ o, marked board o ∧ o ≠ b ∧ d ∈ neighbors o.
Proof.
  intros Hshaped Hb. pose proof Hb as [Hvb _].
  rewrite elem_of_parsed_destinations. split.
  - intros (o & Ho%elem_of_findBlocks & Hn & Hv & Hz).
    apply marked_cleared in Ho as [Ho Hob]; [|done..].
    rewrite cellAt_boardSet in Hz by done.
    split_and!; [done| |by exists o].
    destruct (decide (d = b)); [by left|by right].
  - intros (Hv & Hz & o & Ho & Hob & Hn). exists o. split_and!; [|done..|].
    + by apply elem_of_findBlocks, marked_cleared.
    + rewrite cellAt_boardSet by done.
      destruct (decide (d = b)); [done|]. by destruct Hz.
Qed.

Lemma movesFrom_intro board b :
  let tempBoard := boardSet board b (JNum 0) in
  countConnectedBlocks tempBoard (head (findBlocks tempBoard))
  = length (findBlocks tempBoard) →
  validDestinations tempBoard (findBlocks tempBoard) ≠ [] →
  movesFrom board b
  = Some {| from := b;
            to := parseKey <$> validDestinations tempBoard (findBlocks tempBoard) |}.
Proof.
  intros tempBoard Hcount Hne. unfold movesFrom, movesOn. fold tempBoard.
  cbn zeta. case_bool_decide; [|done]. case_bool_decide as Hlen; [done|].
  destruct (validDestinations tempBoard (findBlocks tempBoard)); [done|].
  cbn in Hlen. lia.
Qed.

(** The cleared source is always among the destinations collected. *)
Lemma source_in_destinations board b :
  shaped board → connected board → (2 ≤ length (findBlocks board))%nat →
  marked board b →
  b ∈ parseKey <$> validDestinations (boardSet board b (JNum 0))
                     (findBlocks (boardSet board b (JNum 0))).
Proof.
  intros Hshaped Hconn Hlen Hb. apply elem_of_destinations_board; [done..|].
  destruct Hb as [Hvb Hob]. split_and!; [done|by left|].
  destruct (marked_neighbor board b) as (y & Hy & Hm & Hne); [done..|].
  exists y. split_and!; [done..|]. by apply neighbors_sym.
Qed.

Lemma move_of_remainingConnected board b :
  validateBoard board = None → marked board b → remainingConnected board b →
  ∃ m, m ∈ findAllValidMoves board ∧ from m = b.
Proof.
  intros Hvalid Hb Hrem.
  pose proof (validateBoard_connected _ Hvalid) as Hconn.
  apply validateBoard_None in Hvalid as (Hshaped & Hlen & _).
  apply (count_test_remainingConnected board b Hshaped Hb) in Hrem.
  cbn zeta in Hrem.
  pose proof (source_in_destinations board b Hshaped Hconn) as Hsrc.
  rewrite Hlen in Hsrc. specialize (Hsrc ltac:(unfold BLOCK_COUNT; lia) Hb).
  exists {| from := b;
            to := parseKey <$> validDestinations (boardSet board b (JNum 0))
                                 (findBlocks (boardSet board b (JNum 0))) |}.
  split; [|done].
  apply elem_of_findAllValidMoves. cbn [from]. split; [done|].
  apply movesFrom_intro; [done|].
  intros Hnil. rewrite Hnil in Hsrc. by apply elem_of_nil in Hsrc.
Qed.

(** X5. On a board that passes [validateBoard], a block is the source of
    a move exactly when the other blocks are joined by chains that avoid
    it. *)
Theorem move_iff_remaining_connected (board : jsval) (b : cell) :
  validateBoard board = None →
  marked board b →
  (∃ m, m ∈ findAllValidMoves board ∧ from m = b) ↔ remainingConnected board b.
Proof.
  intros Hvalid Hb. split; [|by apply move_of_remainingConnected].
  apply validateBoard_None in Hvalid as (Hshaped & _).
  intros (m & [_ (_ & _ & Hcount & _)%movesFrom_Some]%elem_of_findAllValidMoves & <-).
  by apply (count_test_remainingConnected board (from m)).
Qed.

(** X6. The destinations of a move are listed once each, and they are
    exactly the in-bounds cells next to a block other than the source that
    hold 0 on the board or are the source itself. *)
Theorem destinations_exactly (board : jsval) (m : move) :
  validateBoard board = None →
  m ∈ findAllValidMoves board →
  NoDup (to m)
  ∧ ∀ d, d ∈ to m
         ↔ isValidCoord d = true
           ∧ (d = from m ∨ isZero (cellAt board d) = true)
           ∧ ∃ o, marked board o ∧ o ≠ from m ∧ d ∈ neighbors o.
Proof.
  intros (Hshaped & _)%validateBoard_None
         [Hfrom (_ & Hto & _)%movesFrom_Some]%elem_of_findAllValidMoves.
  cbn zeta in Hto. rewrite Hto. split.
  - apply NoDup_parsed_destinations.
  - intros d. by apply elem_of_destinations_board.
Qed.

(** ** A valid board always has a move *)

Section farthest.
Variable board : jsval.
Variable r0 : cell.

Lemma nsteps_edge_succ n x z :
  nsteps (edge board) (S n) x z
  ↔ ∃ y, y ∈ neighbors x ∧ marked board y ∧ nsteps (edge board) n y z.
Proof.
  split.
  - inversion 1 as [|? ? y ? [Hn Hm] Hrest]; subst. by exists y.
  - intros (y & Hn & Hm & Hrest). by apply (nsteps_l _ _ _ y).
Qed.

Lemma marked_decide n : marked board n ∨ ¬ marked board n.
Proof.
  unfold marked. destruct (isValidCoord n), (isOne (cellAt board n)); naive_solver.
Qed.

(** Whether [z] is [n] steps away from [x] can be decided. *)
Lemma nsteps_edge_decide n x z :
  nsteps (edge board) n x z ∨ ¬ nsteps (edge board) n x z.
Proof.
  revert x. induction n as [|n IH]; intros x.
  - destruct (decide (x = z)) as [->|Hne]; [left; constructor|right].
    by inversion 1.
  - assert (∀ l : list cell,
              (∃ y, y ∈ l ∧ marked board y ∧ nsteps (edge board) n y z)
              ∨ ¬ (∃ y, y ∈ l ∧ marked board y ∧ nsteps (edge board) n y z)) as Hl.
    { induction l as [|a l IHl].
      - right. intros (y & Hy & _). by apply elem_of_nil in Hy.
      - destruct IHl as [(y & Hy & Hm & Hs)|Hno].
        + left. exists y. split_and!; [by right|done..].
        + destruct (marked_decide a) as [Ha|Ha], (IH a) as [Hs|Hs].
          1: left; exists a; split_and!; [by left|done..].
          all: right; intros (y & [->|Hy]%elem_of_cons & Hm & Hs'); try done;
            apply Hno; by exists y. }
    destruct (Hl (neighbors x)) as [Hyes|Hno].
    + left. by apply nsteps_edge_succ.
    + right. by rewrite nsteps_edge_succ.
Qed.

Lemma distance_exists x : reach board r0 x → ∃ d, distance board r0 x d.
Proof.
  intros Hx%rtc_nsteps.
  destruct (dec_inh_nat_subset_has_unique_least_element
              (λ n, nsteps (edge board) n r0 x)) as (d & [Hd Hleast] & _).
  - intros n. apply nsteps_edge_decide.
  - done.
  - exists d. split; [done|]. intros i Hi Hs. apply Hleast in Hs. lia.
Qed.

(** Among finitely many reachable cells one is farthest from [r0]. *)
Lemma farthest_exists (l : list cell) :
  l ≠ [] → (∀ x, x ∈ l → reach board r0 x) →
  ∃ b n, b ∈ l ∧ distance board r0 b n
         ∧ ∀ y, y ∈ l → ∃ m, (m ≤ n)%nat ∧ nsteps (edge board) m r0 y.
Proof.
  induction l as [|a l IH]; [done|]. intros _ Hreach.
  destruct (distance_exists a) as (da & Hda); [apply Hreach; by left|].
  destruct l as [|a' l'].
  - exists a, da. split_and!; [by left|done|].
    intros y ->%list_elem_of_singleton. exists da. split; [done|apply Hda].
  - destruct IH as (b & n & Hb & Hdb & Hall); [done| |].
    { intros x Hx. apply Hreach. by right. }
    destruct (decide (n ≤ da)%nat) as [Hle|Hgt].
    + exists a, da. split_and!; [by left|done|].
      intros y [->|Hy]%elem_of_cons.
      * exists da. split; [done|apply Hda].
      * destruct (Hall y Hy) as (m & Hm & Hs). exists m. split; [lia|done].
    + exists b, n. split_and!; [by right|done|].
      intros y [->|Hy]%elem_of_cons.
      * exists da. split; [lia|apply Hda].
      * by apply Hall.
Qed.

(** A path of [m] steps to a cell other than [b] avoids [b] when [b] is
    at least [m] steps away. *)
Lemma nsteps_avoiding b m y :
  nsteps (edge board) m r0 y →
  (∀ i, (i < m)%nat → ¬ nsteps (edge board) i r0 b) →
  y ≠ b →
  rtc (edgeWithout board b) r0 y.
Proof.
  revert y. induction m as [|m IH]; intros y Hs Hfar Hne.
  - inversion Hs; subst. apply rtc_refl.
  - apply nsteps_inv_r in Hs as (z & Hz & [Hn Hm]).
    apply (rtc_r _ z); [|done].
    apply IH; [done|intros i Hi; apply Hfar; lia|].
    intros ->. by apply (Hfar m); [lia|].
Qed.
End farthest.

Lemma edgeWithout_sym board b x y :
  marked board x → x ≠ b → edgeWithout board b x y → edgeWithout board b y x.
Proof. intros Hx Hxb (Hn & _ & _). split_and!; [by apply neighbors_sym|done..]. Qed.

Lemma rtc_edgeWithout_sym board b x y :
  marked board x → x ≠ b →
  rtc (edgeWithout board b) x y → rtc (edgeWithout board b) y x.
Proof.
  intros Hx Hxb Hr. induction Hr as [|x y z Hxy Hyz IH]; [apply rtc_refl|].
  pose proof Hxy as (_ & Hy & Hyb).
  eapply rtc_r; [by apply IH|]. by apply edgeWithout_sym.
Qed.

(** A connected shape of two or more blocks has a block whose removal
    leaves the others connected: one farthest from the first block. *)
Lemma remainingConnected_exists board :
  connected board → (2 ≤ length (findBlocks board))%nat →
  ∃ b, marked board b ∧ remainingConnected board b.
Proof.
  intros Hconn Hlen.
  destruct (findBlocks board) as [|r0 rest] eqn:Hblocks; [cbn in Hlen; lia|].
  assert (marked board r0) as Hr0 by (apply elem_of_findBlocks; rewrite Hblocks; by left).
  destruct (farthest_exists board r0 (findBlocks board))
    as (b & n & Hb%elem_of_findBlocks & [Hbn Hleast] & Hall).
  { by rewrite Hblocks. }
  { intros x Hx%elem_of_findBlocks. by apply Hconn. }
  assert (∀ y, marked board y → y ≠ b → rtc (edgeWithout board b) r0 y) as Hhub.
  { intros y Hy Hyb. destruct (Hall y) as (m & Hm & Hs); [by apply elem_of_findBlocks|].
    apply (nsteps_avoiding board r0 b m); [done| |done].
    intros i Hi. apply Hleast. lia. }
  assert (r0 ≠ b) as Hne.
  { intros <-. destruct rest as [|y rest']; [cbn in Hlen; lia|].
    pose proof (NoDup_findBlocks board) as Hnd. rewrite Hblocks in Hnd.
    assert (y ≠ r0) as Hy.
    { intros ->. apply NoDup_cons in Hnd as [Hnin _]. apply Hnin. by left. }
    destruct (Hall y) as (m & Hm & Hs); [rewrite Hblocks; right; by left|].
    destruct n as [|n].
    - assert (m = 0%nat) as -> by lia. by inversion Hs.
    - apply (Hleast 0%nat); [lia|constructor]. }
  exists b. split; [done|]. intros x y Hx Hxb Hy Hyb.
  etrans; [|by apply Hhub].
  apply rtc_edgeWithout_sym; [done..|by apply Hhub].
Qed.

(** X7. A board that passes [validateBoard] has at least one move, so the
    handler never answers that no valid move is available. *)
Theorem valid_board_has_move (board : jsval) :
  validateBoard board = None →
  ∃ m, m ∈ findAllValidMoves board ∧ findAllValidMoves board ≠ [].
Proof.
  intros Hvalid.
  pose proof (validateBoard_connected _ Hvalid) as Hconn.
  pose proof Hvalid as (_ & Hlen & _)%validateBoard_None.
  destruct (remainingConnected_exists board) as (b & Hb & Hrem); [done| |].
  { rewrite Hlen. unfold BLOCK_COUNT. lia. }
  destruct (move_of_remainingConnected board b) as (m & Hm & _); [done..|].
  exists m. split; [done|].
  intros Hnil. rewrite Hnil in Hm. by apply elem_of_nil in Hm.
Qed.

(** ** Moves can be taken back *)

Lemma index_lookup l (i : nat) v :
  l !! i = Some v → index (JArr l) (Z.of_nat i) = v.
Proof.
  intros Hv. unfold index. rewrite (proj2 (Z.leb_le 0 _)) by lia.
  by rewrite Nat2Z.id, Hv.
Qed.

(** Two 10x10 boards with the same cells are the same value. *)
Lemma shaped_ext board1 board2 :
  shaped board1 → shaped board2 →
  (∀ n, isValidCoord n = true → cellAt board1 n = cellAt board2 n) →
  board1 = board2.
Proof.
  intros (rows1 & -> & Hlen1 & Hrows1) (rows2 & -> & Hlen2 & Hrows2) Hcells.
  f_equal. apply list_eq_same_length with (Z.to_nat BOARD_SIZE); [done..|].
  intros i row1 row2 Hi Hrow1 Hrow2.
  rewrite Forall_forall in Hrows1, Hrows2.
  destruct (Hrows1 row1) as (l1 & -> & Hl1); [by eapply list_elem_of_lookup_2|].
  destruct (Hrows2 row2) as (l2 & -> & Hl2); [by eapply list_elem_of_lookup_2|].
  f_equal. apply list_eq_same_length with (Z.to_nat BOARD_SIZE); [done..|].
  intros j v1 v2 Hj Hv1 Hv2.
  assert (cellAt (JArr rows1) (Z.of_nat i, Z.of_nat j) = v1) as <-.
  { unfold cellAt. cbn [fst snd].
    rewrite (index_lookup rows1 i (JArr l1)), (index_lookup l1 j v1); done. }
  assert (cellAt (JArr rows2) (Z.of_nat i, Z.of_nat j) = v2) as <-.
  { unfold cellAt. cbn [fst snd].
    rewrite (index_lookup rows2 i (JArr l2)), (index_lookup l2 j v2); done. }
  apply Hcells, isValidCoord_spec. cbn [fst snd]. lia.
Qed.

(** What membership of a move and of a destination gives. *)
Lemma move_destination_facts board m d :
  validateBoard board = None → m ∈ findAllValidMoves board → d ∈ to m →
  let tempBoard := boardSet board (from m) (JNum 0) in
  shaped board ∧ marked board (from m) ∧ shaped tempBoard
  ∧ S (length (findBlocks tempBoard)) = BLOCK_COUNT
  ∧ countConnectedBlocks tempBoard (head (findBlocks tempBoard))
    = length (findBlocks tempBoard)
  ∧ isValidCoord d = true ∧ isZero (cellAt tempBoard d) = true
  ∧ ¬ marked tempBoard d
  ∧ ∃ o, marked tempBoard o ∧ d ∈ neighbors o.
Proof.
  intros (Hshaped & Hlen & _)%validateBoard_None
         [Hfrom (_ & Hto & Hcount & _)%movesFrom_Some]%elem_of_findAllValidMoves Hd.
  cbn zeta in *. rewrite Hto in Hd.
  apply elem_of_parsed_destinations in Hd as (o & Ho%elem_of_findBlocks & Hnb & Hv & Hz).
  pose proof Hfrom as [Hvf _].
  split_and!; [done|done|by apply shaped_boardSet| |done|done|done| |by exists o].
  - rewrite length_findBlocks_cleared by done. done.
  - intros [_ Hone]. apply isOne_isZero in Hz. congruence.
Qed.

(** X8. After a move to another cell, the move back is enumerated and
    restores the board. *)
Theorem move_reversible (board : jsval) (m : move) (d : cell) :
  validateBoard board = None →
  m ∈ findAllValidMoves board →
  d ∈ to m →
  d ≠ from m →
  ∃ m', m' ∈ findAllValidMoves (relocate board (from m) d)
        ∧ from m' = d
        ∧ from m ∈ to m'
        ∧ relocate (relocate board (from m) d) d (from m) = board.
Proof.
  intros Hvalid Hm Hd Hne.
  destruct (move_destination_facts board m d Hvalid Hm Hd)
    as (Hshaped & Hb & Hshaped' & Hlen' & Hcount & Hvd & Hzd & Hnd & o & Ho & Hno).
  pose proof (validateBoard_connected _ Hvalid) as Hconn.
  pose proof Hvalid as (_ & Hlen & _)%validateBoard_None.
  pose proof Hb as [Hvb Hob].
  set (b := from m) in *. set (tempBoard := boardSet board b (JNum 0)) in *.
  assert (validateBoard (relocate board b d) = None) as Hvalid'
    by (by apply (validateBoard_grow tempBoard d o)).
  assert (marked (relocate board b d) d) as Hmd by (apply marked_set; auto).
  assert (remainingConnected (relocate board b d) d) as Hrem.
  { destruct (head (findBlocks tempBoard)) as [r0|] eqn:Hr0.
    2: { apply head_None in Hr0. apply elem_of_findBlocks in Ho.
         rewrite Hr0 in Ho. by apply elem_of_nil in Ho. }
    apply head_findBlocks_marked in Hr0 as Hm0.
    pose proof (proj1 (countConnectedBlocks_all tempBoard r0 Hm0) Hcount) as Hall.
    pose proof (connected_from tempBoard r0 Hm0 Hall) as Hconn'.
    intros x y Hx Hxd Hy Hyd.
    apply marked_set in Hx as [Hx|?]; [|done..].
    apply marked_set in Hy as [Hy|?]; [|done..].
    eapply rtc_subrel; [|by apply Hconn'].
    intros u v [Hn Hv]. split_and!; [done|apply marked_set; auto|].
    by intros ->. }
  destruct (move_of_remainingConnected _ d Hvalid' Hmd Hrem) as (m' & Hm' & Hfrom').
  exists m'. split_and!; [done..| |].
  - apply elem_of_findAllValidMoves in Hm' as [_ (_ & -> & _)%movesFrom_Some].
    rewrite Hfrom'. apply elem_of_destinations_board; [by apply shaped_boardSet|done|].
    split_and!; [done|right|].
    + unfold relocate. rewrite cellAt_boardSet, decide_False by done.
      unfold tempBoard. rewrite cellAt_boardSet, decide_True by done. done.
    + destruct (marked_neighbor board b) as (y & Hy & Hmy & Hyb); [done..| |].
      { rewrite Hlen. unfold BLOCK_COUNT. lia. }
      assert (marked tempBoard y) as Hty by (by apply marked_cleared).
      exists y. split_and!; [apply marked_set; auto| |by apply neighbors_sym].
      by intros ->.
  - apply shaped_ext; [|done|].
    { unfold relocate. by repeat apply shaped_boardSet. }
    intros n Hn. unfold relocate.
    rewrite cellAt_boardSet; [|by repeat apply shaped_boardSet|done].
    destruct (decide (n = b)) as [->|Hnb]; [symmetry; by apply isOne_JNum|].
    rewrite cellAt_boardSet; [|by repeat apply shaped_boardSet|done].
    unfold tempBoard in Hzd.
    rewrite cellAt_boardSet in Hzd by done. rewrite decide_False in Hzd by done.
    destruct (decide (n = d)) as [->|Hnd']; [symmetry; by apply isZero_JNum|].
    rewrite cellAt_boardSet, decide_False by done.
    unfold tempBoard. rewrite cellAt_boardSet, decide_False by done.
    done.
Qed.

(** ** Scan order *)

Lemma StronglySorted_seqZ m n : StronglySorted Z.lt (seqZ m n).
Proof.
  remember (Z.to_nat n) as k eqn:Hk. revert m n Hk.
  induction k as [|k IH]; intros m n Hk.
  - rewrite seqZ_nil by lia. constructor.
  - rewrite seqZ_cons by lia. constructor; [apply IH; lia|].
    apply Forall_forall. intros x Hx%elem_of_seqZ. lia.
Qed.

Lemma StronglySorted_bind {A B} (RA : relation A) (RB : relation B)
    (f : A → list B) (l : list A) :
  StronglySorted RA l →
  (∀ x, x ∈ l → StronglySorted RB (f x)) →
  (∀ x y a b, RA x y → a ∈ f x → b ∈ f y → RB a b) →
  StronglySorted RB (l ≫= f).
Proof.
  intros Hl Hf Hcross. induction Hl as [|x l Hl IH Hx]; csimpl; [constructor|].
  apply StronglySorted_app. split_and!.
  - intros a b Ha (y & Hb & Hy)%list_elem_of_bind.
    rewrite Forall_forall in Hx. eapply Hcross; [by apply Hx|done..].
  - apply Hf. by left.
  - apply IH. intros y Hy. apply Hf. by right.
Qed.

Lemma sublist_elem_of_l {A} (l1 l2 : list A) x :
  sublist l1 l2 → x ∈ l1 → x ∈ l2.
Proof.
  induction 1 as [|y l1 l2 _ IH|y l1 l2 _ IH]; [done| |].
  - intros [->|Hx]%elem_of_cons; [by left|right; auto].
  - intros Hx. right. auto.
Qed.

Lemma StronglySorted_sublist {A} (R : relation A) (l1 l2 : list A) :
  sublist l1 l2 → StronglySorted R l2 → StronglySorted R l1.
Proof.
  induction 1 as [|y l1 l2 Hsub IH|y l1 l2 Hsub IH]; [done| |].
  - intros [Hl2 Hy]%StronglySorted_inv. constructor; [auto|].
    rewrite Forall_forall in Hy. apply Forall_forall. intros x Hx.
    by eapply Hy, sublist_elem_of_l.
  - intros [Hl2 _]%StronglySorted_inv. auto.
Qed.

Lemma findBlocks_sorted board : StronglySorted rowMajorLt (findBlocks board).
Proof.
  unfold findBlocks. apply (StronglySorted_bind Z.lt); [apply StronglySorted_seqZ| |].
  - intros r _. apply (StronglySorted_bind Z.lt); [apply StronglySorted_seqZ| |].
    + intros c _. destruct (isOne _); repeat constructor.
    + intros c1 c2 a b Hlt Ha Hb.
      destruct (isOne _); [|by apply elem_of_nil in Ha].
      destruct (isOne _); [|by apply elem_of_nil in Hb].
      apply list_elem_of_singleton in Ha as ->, Hb as ->. right. done.
  - intros r1 r2 a b Hlt (c1 & Ha & _)%list_elem_of_bind (c2 & Hb & _)%list_elem_of_bind.
    destruct (isOne _); [|by apply elem_of_nil in Ha].
    destruct (isOne _); [|by apply elem_of_nil in Hb].
    apply list_elem_of_singleton in Ha as ->, Hb as ->. left. done.
Qed.

Lemma sources_sublist board (blocks : list cell) :
  sublist (from <$> omap (movesFrom board) blocks) blocks.
Proof.
  induction blocks as [|b blocks IH]; [constructor|]. cbn [omap list_omap].
  destruct (movesFrom board b) as [m|] eqn:Hm.
  - apply movesFrom_Some in Hm as (<- & _). cbn. by constructor.
  - by constructor.
Qed.

(** X3. [findBlocks] lists exactly the in-bounds cells holding 1, once
    each, in row-major order. *)
Theorem findBlocks_scan (board : jsval) :
  shaped board →
  (∀ n, n ∈ findBlocks board
        ↔ isValidCoord n = true ∧ cellAt board n = JNum 1)
  ∧ NoDup (findBlocks board)
  ∧ StronglySorted rowMajorLt (findBlocks board).
Proof.
  intros _. split_and!; [|apply NoDup_findBlocks|apply findBlocks_sorted].
  intros n. rewrite elem_of_findBlocks. unfold marked. split.
  - intros [Hv Ho%isOne_JNum]. done.
  - intros [Hv ->]. done.
Qed.

(** X4. The moves come in the scan order of their sources, at most one
    move for a block. *)
Theorem moves_in_scan_order (board : jsval) :
  validateBoard board = None →
  sublist (from <$> findAllValidMoves board) (findBlocks board)
  ∧ NoDup (from <$> findAllValidMoves board)
  ∧ StronglySorted rowMajorLt (from <$> findAllValidMoves board).
Proof.
  intros _. pose proof (sources_sublist board (findBlocks board)) as Hsub.
  change (omap (movesFrom board) (findBlocks board))
    with (findAllValidMoves board) in Hsub.
  split_and!; [exact Hsub| |].
  - eapply sublist_NoDup; [apply NoDup_findBlocks|exact Hsub].
  - apply (StronglySorted_sublist _ _ _ Hsub), findBlocks_sorted.
Qed.

(** ** What [validateBoard] decides, in terms of the shape *)

Lemma component_eq board s t :
  marked board s → reach board s t →
  countConnectedBlocks board (Some s) = countConnectedBlocks board (Some t).
Proof.
  intros Hs Hst.
  destruct (countConnectedBlocks_component board s) as (X & HX & ->).
  destruct (countConnectedBlocks_component board t) as (Y & HY & ->).
  f_equal. apply set_eq. intros x. rewrite HX, HY. split.
  - intros Hx. etrans; [by apply reach_sym|done].
  - intros Hx. by etrans.
Qed.

(** X2. The count does not depend on the block the traversal starts
    from: two blocks joined by a chain of blocks give the same count, on a
    board that passes [validateBoard] every block gives [BLOCK_COUNT], and
    a board of [BLOCK_COUNT] blocks passes as soon as one block does. *)
Theorem count_start_independent (board : jsval) (s t : cell) :
  shaped board →
  marked board s →
  (reach board s t →
   countConnectedBlocks board (Some s) = countConnectedBlocks board (Some t))
  ∧ (validateBoard board = None →
     countConnectedBlocks board (Some s) = BLOCK_COUNT)
  ∧ (length (findBlocks board) = BLOCK_COUNT →
     countConnectedBlocks board (Some s) = BLOCK_COUNT →
     validateBoard board = None).
Proof.
  intros Hshaped Hs. split_and!.
  - by apply component_eq.
  - intros Hvalid. pose proof (validateBoard_connected _ Hvalid) as Hconn.
    apply validateBoard_None in Hvalid as (_ & <- & _).
    apply countConnectedBlocks_all; [done|]. intros y Hy. by apply Hconn.
  - intros Hlen Hcount. apply validateBoard_None. split_and!; [done..|].
    destruct (head (findBlocks board)) as [r0|] eqn:Hr0.
    2: { apply head_None in Hr0. by rewrite Hr0 in Hlen. }
    apply head_findBlocks_marked in Hr0 as Hm0.
    rewrite <- Hcount. symmetry. apply component_eq; [done|].
    apply countConnectedBlocks_all; [done|congruence|done].
Qed.

(** X1. The four outcomes of [validateBoard], in terms of the shape: the
    first message exactly when the value is not a 10x10 array of arrays, the
    second exactly when it is and its marked cells do not number
    [BLOCK_COUNT], the third exactly when they do and are not all in one
    4-connected component, and no error in the remaining case. *)
Theorem validateBoard_outcomes (board : jsval) (X : gset cell) :
  (∀ n, n ∈ X ↔ marked board n) →
  (validateBoard board = Some MalformedShape ↔ ¬ shaped board)
  ∧ (validateBoard board = Some WrongBlockCount
     ↔ shaped board ∧ size X ≠ BLOCK_COUNT)
  ∧ (validateBoard board = Some Disconnected
     ↔ shaped board ∧ size X = BLOCK_COUNT ∧ ¬ connected board)
  ∧ (validateBoard board = None
     ↔ shaped board ∧ size X = BLOCK_COUNT ∧ connected board).
Proof.
  intros HX.
  assert (size X = length (findBlocks board)) as ->.
  { rewrite <- size_blockSet. f_equal. apply set_eq. intros n.
    by rewrite elem_of_blockSet, HX. }
  assert (length (findBlocks board) = BLOCK_COUNT →
          countConnectedBlocks board (head (findBlocks board)) = BLOCK_COUNT
          ↔ connected board) as Hiff.
  { intros Hlen. destruct (head (findBlocks board)) as [s|] eqn:Hs.
    2: { apply head_None in Hs. by rewrite Hs in Hlen. }
    apply head_findBlocks_marked in Hs as Hm. rewrite <- Hlen.
    rewrite countConnectedBlocks_all by done. split.
    - by apply connected_from.
    - intros Hconn y Hy. by apply Hconn. }
  split_and!.
  - apply validateBoard_MalformedShape.
  - apply validateBoard_WrongBlockCount.
  - rewrite validateBoard_Disconnected. split.
    + intros (? & Hlen & Hc). split_and!; [done..|]. by rewrite <- Hiff.
    + intros (? & Hlen & Hc). split_and!; [done..|]. by rewrite Hiff.
  - rewrite validateBoard_None. split.
    + intros (? & Hlen & Hc). split_and!; [done..|]. by rewrite <- Hiff.
    + intros (? & Hlen & Hc). split_and!; [done..|]. by rewrite Hiff.
Qed.

Lemma startsWith_spec pat s : startsWith pat s = true ↔ ∃ t, s = pat ++ t.
Proof.
  revert s. induction pat as [|p pat IH]; intros s; cbn [startsWith].
  - split; [by exists s|done].
  - destruct s as [|c s]; [split; [done|by intros (t & ?)]|].
    rewrite andb_true_iff, N.eqb_eq, IH. split.
    + intros (-> & t & ->). by exists t.
    + intros (t & [= -> ->]). split; [done|by exists t].
Qed.

Lemma removeAllFrom_skip pat k s :
  removeAllFrom pat k s = removeAll pat (drop k s).
Proof.
  revert k. induction s as [|c s IH]; intros k; [by destruct k|].
  destruct k as [|k]; [done|]. cbn [removeAllFrom drop]. apply IH.
Qed.

Lemma removeAll_match pat t :
  pat ≠ [] → removeAll pat (pat ++ t) = removeAll pat t.
Proof.
  intros Hpat. destruct pat as [|p pat]; [done|].
  unfold removeAll at 1. cbn [app removeAllFrom].
  assert (startsWith (p :: pat) (p :: pat ++ t) = true) as ->
    by (apply startsWith_spec; by exists t).
  rewrite removeAllFrom_skip.
  replace (length (p :: pat) - 1)%nat with (length pat) by (cbn [length]; lia).
  by rewrite drop_app_length.
Qed.

Lemma removeAll_keep pat c s :
  startsWith pat (c :: s) = false →
  removeAll pat (c :: s) = c :: removeAll pat s.
Proof. intros H. unfold removeAll. cbn [removeAllFrom]. by rewrite H. Qed.

Lemma noOccurrence_cons pat c s :
  noOccurrence pat (c :: s) ↔ startsWith pat (c :: s) = false ∧ noOccurrence pat s.
Proof.
  split.
  - intros Hno. split.
    + apply not_true_is_false. intros (t & Ht)%startsWith_spec.
      by apply (Hno [] t).
    + intros a b ->. by apply (Hno (c :: a) b).
  - intros [Hs Hno] a b Heq. destruct a as [|c' a].
    + apply not_true_iff_false in Hs. apply Hs, startsWith_spec. by exists b.
    + injection Heq as -> ->. by apply (Hno a b).
Qed.

Lemma noOccurrence_nil pat : pat ≠ [] → noOccurrence pat [].
Proof.
  intros Hpat a b Heq. symmetry in Heq.
  apply app_eq_nil in Heq as [_ [? _]%app_eq_nil]. done.
Qed.

(** Where the pattern does not occur nothing is removed. *)
Lemma removeAll_noOccurrence pat s : noOccurrence pat s → removeAll pat s = s.
Proof.
  induction s as [|c s IH]; [done|].
  intros [Hs Hno]%noOccurrence_cons. rewrite removeAll_keep by done.
  by rewrite IH.
Qed.

(** After the removal of the fences none is left: the backticks that
    remain come in runs shorter than three. *)
Lemma removeAll_fence_spec (n : nat) (s : text) :
  (length s ≤ n)%nat →
  noOccurrence fence (removeAll fence s)
  ∧ (startsWith [backtick] s = false
     → startsWith [backtick] (removeAll fence s) = false)
  ∧ (startsWith [backtick; backtick] s = false
     → startsWith [backtick; backtick] (removeAll fence s) = false).
Proof.
  revert s. induction n as [|n IH]; intros s Hlen.
  { destruct s; [|cbn in Hlen; lia]. split_and!; [by apply noOccurrence_nil|done..]. }
  destruct s as [|c s]; [split_and!; [by apply noOccurrence_nil|done..]|].
  cbn [length] in Hlen.
  destruct (startsWith fence (c :: s)) eqn:Hs.
  - apply startsWith_spec in Hs as (t & Ht). rewrite Ht.
    rewrite removeAll_match by done.
    destruct (IH t) as (Hno & _ & _).
    { apply (f_equal length) in Ht. rewrite length_app in Ht. cbn in Ht. lia. }
    split_and!; [done|done..].
  - rewrite removeAll_keep by done.
    destruct (IH s) as (Hno & H1 & H2); [lia|]. apply not_true_iff_false in Hs.
    split_and!.
    + apply noOccurrence_cons. split; [|done].
      apply not_true_is_false. intros (t & [= -> Ho])%startsWith_spec.
      destruct (startsWith [backtick; backtick] s) eqn:Hs2.
      * apply startsWith_spec in Hs2 as (t' & ->).
        apply Hs, startsWith_spec. by exists t'.
      * specialize (H2 eq_refl). apply not_true_iff_false in H2.
        apply H2, startsWith_spec. by exists t.
    + intros Hc. exact Hc.
    + intros Hs2. apply not_true_iff_false in Hs2.
      apply not_true_is_false. intros (t & [= -> Ho])%startsWith_spec.
      destruct (startsWith [backtick] s) eqn:Hs1.
      * apply startsWith_spec in Hs1 as (t' & ->).
        apply Hs2, startsWith_spec. by exists t'.
      * specialize (H1 eq_refl). apply not_true_iff_false in H1.
        apply H1, startsWith_spec. by exists t.
Qed.

Lemma removeAll_fence_noOccurrence s : noOccurrence fence (removeAll fence s).
Proof. by apply (removeAll_fence_spec (length s)). Qed.

(** ** Trimming *)

Lemma trimStart_suffix s :
  ∃ p, s = p ++ trimStart s ∧ Forall (λ c, isWhiteSpace c = true) p.
Proof.
  induction s as [|c s (p & Hp & Hws)]; [by exists []|]. cbn [trimStart].
  destruct (isWhiteSpace c) eqn:Hc.
  - exists (c :: p). split; [cbn; by f_equal|by constructor].
  - by exists [].
Qed.

Lemma trimStart_head s c : head (trimStart s) = Some c → isWhiteSpace c = false.
Proof.
  induction s as [|c' s IH]; [done|]. cbn [trimStart].
  destruct (isWhiteSpace c') eqn:Hc; [done|]. by intros [= <-].
Qed.

Lemma trimStart_id s :
  (∀ c, head s = Some c → isWhiteSpace c = false) → trimStart s = s.
Proof.
  destruct s as [|c s]; [done|]. intros H. cbn. by rewrite (H c).
Qed.

(** What [trim] gives lies inside the string, between white space. *)
Lemma trim_infix s :
  ∃ p q, s = p ++ trim s ++ q
         ∧ Forall (λ c, isWhiteSpace c = true) p
         ∧ Forall (λ c, isWhiteSpace c = true) q.
Proof.
  unfold trim. destruct (trimStart_suffix s) as (p & Hp & Hwp).
  destruct (trimStart_suffix (reverse (trimStart s))) as (q & Hq & Hwq).
  exists p, (reverse q). split_and!; [|done|by apply Forall_reverse].
  rewrite <- reverse_app, <- Hq, reverse_involutive. done.
Qed.

Lemma last_reverse_head {A} (l : list A) : last (reverse l) = head l.
Proof. destruct l as [|a l]; [done|]. by rewrite reverse_cons, last_snoc. Qed.

Lemma head_reverse_last {A} (l : list A) : head (reverse l) = last l.
Proof. by rewrite <- last_reverse_head, reverse_involutive. Qed.

Lemma last_suffix {A} (p l : list A) : l ≠ [] → last (p ++ l) = last l.
Proof.
  intros Hl. induction p as [|a p IH]; [done|]. cbn [app].
  destruct (p ++ l) eqn:E; [by apply app_eq_nil in E as [_ ?]|]. by rewrite <- IH.
Qed.

Lemma trim_ends s c :
  head (trim s) = Some c ∨ last (trim s) = Some c → isWhiteSpace c = false.
Proof.
  unfold trim. rewrite head_reverse_last, last_reverse_head.
  set (u := trimStart s). intros [Hc|Hc]; [|by eapply trimStart_head].
  destruct (trimStart_suffix (reverse u)) as (p & Hp & _).
  assert (trimStart (reverse u) ≠ []) as Hne by (by intros E; rewrite E in Hc).
  rewrite <- (last_suffix p), <- Hp, last_reverse_head in Hc by done.
  by eapply trimStart_head.
Qed.

Lemma trim_id s :
  (∀ c, head s = Some c ∨ last s = Some c → isWhiteSpace c = false) → trim s = s.
Proof.
  intros H. unfold trim. rewrite (trimStart_id s) by (intros c Hc; apply H; by left).
  rewrite trimStart_id, reverse_involutive; [done|].
  intros c Hc. rewrite head_reverse_last in Hc. apply H. by right.
Qed.

Lemma noOccurrence_infix pat p s q :
  noOccurrence pat (p ++ s ++ q) → noOccurrence pat s.
Proof.
  intros Hno a b ->. apply (Hno (p ++ a) (b ++ q)). by rewrite <- !app_assoc.
Qed.

Lemma noOccurrence_fenceJson s : noOccurrence fence s → noOccurrence fenceJson s.
Proof. intros Hno a b ->. by apply (Hno a ([106; 115; 111; 110]%N ++ b)). Qed.

Lemma cleanReply_noOccurrence responseText :
  noOccurrence fence (cleanReply responseText).
Proof.
  unfold cleanReply.
  destruct (trim_infix (removeAll fence (removeAll fenceJson responseText)))
    as (p & q & Heq & _).
  apply (noOccurrence_infix fence p _ q). rewrite <- Heq.
  apply removeAll_fence_noOccurrence.
Qed.

(** X11. The cleaned reply holds no run of three backticks and neither
    begins nor ends with white space. *)
Theorem cleanReply_clean (responseText : text) :
  noOccurrence fence (cleanReply responseText)
  ∧ ∀ c, head (cleanReply responseText) = Some c
         ∨ last (cleanReply responseText) = Some c →
         isWhiteSpace c = false.
Proof. split; [apply cleanReply_noOccurrence|apply trim_ends]. Qed.

(** X12. Cleaning a cleaned reply changes nothing. *)
Theorem cleanReply_idempotent (responseText : text) :
  cleanReply (cleanReply responseText) = cleanReply responseText.
Proof.
  pose proof (cleanReply_noOccurrence responseText) as Hno.
  assert (∀ c, head (cleanReply responseText) = Some c
               ∨ last (cleanReply responseText) = Some c →
               isWhiteSpace c = false) as Hends by apply trim_ends.
  unfold cleanReply at 1.
  rewrite (removeAll_noOccurrence fenceJson) by (by apply noOccurrence_fenceJson).
  rewrite (removeAll_noOccurrence fence) by done.
  by apply trim_id.
Qed.

Lemma removeAll_no_backtick pat body rest :
  startsWith [backtick] pat = true →
  Forall (λ c, c ≠ backtick) body →
  removeAll pat (body ++ rest) = body ++ removeAll pat rest.
Proof.
  intros Hpat Hbody.
  induction Hbody as [|c body Hc _ IH]; [done|]. cbn [app].
  rewrite removeAll_keep; [by rewrite IH|].
  apply startsWith_spec in Hpat as (pat' & ->).
  apply not_true_is_false. intros (t & Ht)%startsWith_spec.
  cbn [app] in Ht. congruence.
Qed.

(** X13. A reply without backticks that is wrapped in a json fence, in a
    plain fence (and does not begin with [j]), or not wrapped at all, is
    cleaned to its trimmed body. *)
Theorem cleanReply_fenced (body : text) :
  Forall (λ c, c ≠ backtick) body →
  cleanReply (fenceJson ++ body ++ fence) = trim body
  ∧ (head body ≠ Some 106%N → cleanReply (fence ++ body ++ fence) = trim body)
  ∧ cleanReply body = trim body.
Proof.
  intros Hbody. unfold cleanReply.
  assert (removeAll fence (body ++ fence) = body) as Hend.
  { rewrite (removeAll_no_backtick fence) by done.
    change (removeAll fence fence) with (@nil N). by rewrite app_nil_r. }
  assert (removeAll fenceJson (body ++ fence) = body ++ fence) as Hend'.
  { by rewrite (removeAll_no_backtick fenceJson) by done. }
  split_and!.
  - by rewrite removeAll_match, Hend', Hend.
  - intros Hj. f_equal.
    assert (removeAll fenceJson (fence ++ body ++ fence) = fence ++ body ++ fence)
      as ->; [|by rewrite removeAll_match, Hend].
    destruct body as [|c body]; [done|].
    apply Forall_cons in Hbody as [Hc Hbody].
    assert (c ≠ 106%N) as Hj' by (intros ->; by apply Hj).
    unfold fence at 1 3. cbn [app].
    rewrite !removeAll_keep.
    all: try (apply not_true_is_false; intros (t & Ht)%startsWith_spec;
              unfold fenceJson in Ht; cbn [app] in Ht; unfold backtick in Hc;
              congruence).
    do 4 f_equal. by apply (removeAll_no_backtick fenceJson body).
  - f_equal. rewrite <- (app_nil_r body) at 1.
    rewrite (removeAll_no_backtick fenceJson) by done. cbn. rewrite app_nil_r.
    rewrite <- (app_nil_r body) at 1.
    rewrite (removeAll_no_backtick fence) by done. cbn. by rewrite app_nil_r.
Qed.

Lemma badPixelRow_spec r : badPixelRow r = false ↔ pixelRow r.
Proof.
  unfold badPixelRow, pixelRow. split.
  - intros [[Harr Hlen]%orb_false_iff Hcells]%orb_false_iff.
    destruct r as [| | | | |cells]; try done. exists cells.
    apply negb_false_iff, bool_decide_eq_true in Hlen.
    split_and!; [done..|]. apply Forall_forall. intros c Hc.
    cbn [arrayElems] in Hcells.
    assert (negb (isZero c) && negb (isOne c) = false) as Hbit.
    { apply not_true_is_false. intros Hbad. apply not_true_iff_false in Hcells.
      apply Hcells, existsb_exists. exists c. by rewrite <- list_elem_of_In. }
    apply andb_false_iff in Hbit as [Hz%negb_false_iff|Ho%negb_false_iff].
    + left. destruct c as [| | |[]| |]; done.
    + right. destruct c as [| | |[|[]|]| |]; done.
  - intros (cells & -> & Hlen & Hcells). cbn [isArray jsLength arrayElems negb orb].
    rewrite bool_decide_eq_true_2 by done. cbn [negb orb].
    apply not_true_is_false. intros (c & Hc%list_elem_of_In & Hbad)%existsb_exists.
    rewrite Forall_forall in Hcells. by destruct (Hcells c Hc) as [-> | ->].
Qed.

Lemma badPixelBoard_spec board :
  badPixelBoard board = false
  ↔ ∃ rows, board = JArr rows ∧ length rows = 50%nat ∧ Forall pixelRow rows.
Proof.
  unfold badPixelBoard. split.
  - intros [[Harr Hlen]%orb_false_iff Hrows]%orb_false_iff.
    destruct board as [| | | | |rows]; try done. exists rows.
    apply negb_false_iff, bool_decide_eq_true in Hlen.
    split_and!; [done..|]. apply Forall_forall. intros r Hr.
    apply badPixelRow_spec, not_true_is_false. intros Hbad.
    apply not_true_iff_false in Hrows.
    apply Hrows, existsb_exists. exists r. by rewrite <- list_elem_of_In.
  - intros (rows & -> & Hlen & Hrows). cbn [isArray jsLength arrayElems negb orb].
    rewrite bool_decide_eq_true_2 by done. cbn [negb orb].
    apply not_true_is_false. intros (r & Hr%list_elem_of_In & Hbad)%existsb_exists.
    rewrite Forall_forall in Hrows. apply Hrows, badPixelRow_spec in Hr. congruence.
Qed.

(** X14. The drawing [/getBoard] accepts a body exactly when it is an
    array of 50 or 51 rows whose first 50 rows are arrays of 50 cells, each
    0 or 1; the board it goes on with is these 50 rows. *)
Theorem drawingBoard_accepts (body board : jsval) :
  drawingBoard body = Some board
  ↔ ∃ rows, body = JArr rows
            ∧ (length rows = 50%nat ∨ length rows = 51%nat)
            ∧ Forall pixelRow (take 50 rows)
            ∧ board = JArr (take 50 rows).
Proof.
  unfold drawingBoard, dropExtraRow. cbn zeta. split.
  - destruct (badPixelBoard _) eqn:Hbad; [done|]. intros [= <-].
    apply badPixelBoard_spec in Hbad as (rows' & Hrows' & Hlen' & Hpix).
    destruct body as [| | | | |rows]; try done. exists rows.
    cbn [isArray jsLength arrayElems andb] in *. case_bool_decide as H51.
    + injection Hrows' as <-. split_and!; [done|by right|done|done].
    + injection Hrows' as <-. rewrite take_ge by lia.
      split_and!; [done|by left|done|done].
  - intros (rows & -> & Hlen & Hpix & ->). cbn [isArray jsLength arrayElems andb].
    assert (badPixelBoard (JArr (take 50 rows)) = false) as Hok.
    { apply badPixelBoard_spec. exists (take 50 rows).
      split_and!; [done| |done]. rewrite length_take. lia. }
    case_bool_decide as H51; [by rewrite Hok|].
    rewrite take_ge in Hok |- * by lia. by rewrite Hok.
Qed.

(** X15. The 51st row is never looked at by [/getBoard], while [/predict]
    refuses every body of 51 rows; what [/getBoard] accepts, [/predict]
    accepts unchanged. *)
Theorem drawing_extra_row (rows : list jsval) (extra : jsval) :
  length rows = 50%nat →
  drawingBoard (JArr (rows ++ [extra])) = drawingBoard (JArr rows)
  ∧ predictBoard (JArr (rows ++ [extra])) = None
  ∧ drawingBoard (JArr rows) = predictBoard (JArr rows)
  ∧ ∀ board, drawingBoard (JArr (rows ++ [extra])) = Some board →
             predictBoard board = Some board ∧ drawingBoard board = Some board.
Proof.
  intros Hlen.
  assert (drawingBoard (JArr (rows ++ [extra])) = drawingBoard (JArr rows)) as Hsame.
  { unfold drawingBoard, dropExtraRow. cbn [isArray jsLength arrayElems andb].
    rewrite length_app, Hlen. cbn [length Nat.add].
    rewrite bool_decide_eq_true_2, bool_decide_eq_false_2 by lia.
    by rewrite take_app_length' by done. }
  assert (drawingBoard (JArr rows) = predictBoard (JArr rows)) as Hpred.
  { unfold drawingBoard, predictBoard, dropExtraRow.
    cbn [isArray jsLength arrayElems andb]. by rewrite bool_decide_eq_false_2 by lia. }
  split_and!; [done| |done|].
  - unfold predictBoard, badPixelBoard. cbn [isArray jsLength negb orb].
    rewrite length_app, Hlen. cbn [length Nat.add].
    by rewrite bool_decide_eq_false_2 by lia.
  - intros board Hb. rewrite Hsame in Hb.
    assert (board = JArr rows) as ->.
    { unfold drawingBoard, dropExtraRow in Hb.
      cbn [isArray jsLength arrayElems andb] in Hb.
      rewrite bool_decide_eq_false_2 in Hb by lia. cbn zeta in Hb.
      by destruct (badPixelBoard (JArr rows)); simplify_eq. }
    by rewrite <- Hpred.
Qed.

(** ** The diagram *)

Lemma list_as_indices (l : list jsval) :
  length l = Z.to_nat BOARD_SIZE → l = index (JArr l) <$> indices.
Proof.
  intros Hlen. apply list_eq. intros i. unfold indices.
  rewrite list_lookup_fmap.
  destruct (decide (i < length l)%nat) as [Hi|Hi].
  - rewrite lookup_seqZ_lt by lia. cbn [fmap option_fmap option_map].
    rewrite Z.add_0_l.
    destruct (lookup_lt_is_Some_2 l i Hi) as [v Hv]. rewrite Hv.
    by rewrite (index_lookup l i v).
  - rewrite lookup_seqZ_ge by lia. by rewrite lookup_ge_None_2 by lia.
Qed.

Lemma visualRow_fmap row :
  visualRow row = (λ cell, if isOne cell then 35%N else 32%N) <$> arrayElems row.
Proof.
  unfold visualRow. induction (arrayElems row) as [|cell cells IH]; [done|].
  cbn [fmap list_fmap concat]. rewrite IH. by destruct (isOne cell).
Qed.

Lemma length_filter_bind {A B C} (P : B → Prop) `{!∀ x, Decision (P x)}
    (f : A → list B) (g : A → list C) (l : list A) :
  (∀ x, x ∈ l → length (filter P (f x)) = length (g x)) →
  length (filter P (l ≫= f)) = length (l ≫= g).
Proof.
  induction l as [|a l IH]; [done|]. intros Hfg. csimpl.
  rewrite filter_app, !length_app, IH.
  - f_equal. apply Hfg. by left.
  - intros x Hx. apply Hfg. by right.
Qed.

Lemma count_marks {A} (f : Z → jsval) (g : Z → A) (l : list Z) :
  length (filter (λ ch, ch = 35%N) ((λ c, if isOne (f c) then 35%N else 32%N) <$> l))
  = length (l ≫= λ c, if isOne (f c) then [g c] else []).
Proof.
  induction l as [|c l IH]; [done|].
  rewrite fmap_cons, bind_cons, filter_cons, length_app, <- IH.
  by destruct (isOne (f c)).
Qed.

(** X16. The diagram of the prompt has one line for each row; at each
    cell of a 10x10 board it shows [#] (35) for a block and a space (32)
    otherwise, and it shows as many [#] as [findBlocks] lists blocks. *)
Theorem visualRows_diagram (board : jsval) :
  shaped board →
  length (visualRows board) = Z.to_nat BOARD_SIZE
  ∧ (∀ n, isValidCoord n = true →
          visualRows board !! Z.to_nat n.1 ≫= (.!! Z.to_nat n.2)
          = Some (if isOne (cellAt board n) then 35%N else 32%N))
  ∧ length (filter (λ ch, ch = 35%N) (concat (visualRows board)))
    = length (findBlocks board).
Proof.
  intros (rows & -> & Hlen & Hrows). unfold visualRows. cbn [arrayElems].
  split_and!.
  - by rewrite length_fmap.
  - intros [r c] [Hr Hc]%isValidCoord_spec. cbn [fst snd] in *.
    rewrite list_lookup_fmap.
    destruct (lookup_lt_is_Some_2 rows (Z.to_nat r)) as [row Hrow]; [lia|].
    rewrite Hrow. cbn. rewrite visualRow_fmap, list_lookup_fmap.
    rewrite Forall_forall in Hrows.
    destruct (Hrows row) as (cells & -> & Hcl); [by eapply list_elem_of_lookup_2|].
    destruct (lookup_lt_is_Some_2 cells (Z.to_nat c)) as [cell Hcell]; [lia|].
    cbn [arrayElems]. rewrite Hcell. cbn. do 2 f_equal.
    unfold cellAt. cbn [fst snd].
    rewrite <- (Z2Nat.id r), (index_lookup rows _ (JArr cells)) by (done || lia).
    rewrite <- (Z2Nat.id c), (index_lookup cells _ cell) by (done || lia). done.
  - rewrite (list_as_indices rows Hlen) at 1. rewrite <- list_fmap_compose.
    change (concat ((visualRow ∘ index (JArr rows)) <$> indices))
      with (indices ≫= (visualRow ∘ index (JArr rows))).
    unfold findBlocks. apply length_filter_bind.
    intros r Hr%elem_of_indices. cbn [compose].
    pose proof (index_row (JArr rows) (r, 0)) as (cells & Hcells & Hcl).
    { by exists rows. }
    { apply isValidCoord_spec. cbn. unfold BOARD_SIZE in *. lia. }
    cbn [fst] in Hcells. rewrite visualRow_fmap. unfold cellAt. cbn [fst snd].
    rewrite Hcells. cbn [arrayElems]. rewrite (list_as_indices cells Hcl) at 1.
    rewrite <- list_fmap_compose.
    apply (count_marks (index (JArr cells)) (λ c, (r, c))).
Qed.

(** ** Keys and the working copy *)


(** X10. The working copy with [block] cleared shows the board with that
    one cell set to 0, whatever objects the rows of the board share; so the
    moves computed on the store are those of the value of the board. *)
Theorem workingCopy_value (h : heap) (board : val) (block : cell) :
  shaped (snapshot h board) →
  isValidCoord block = true →
  snapshot (storeIndex (copyBoard h board).2
              (loadIndex (copyBoard h board).2 (copyBoard h board).1 block.1)
              block.2 (VNum 0))
           (copyBoard h board).1
  = boardSet (snapshot h board) block (JNum 0)
  ∧ (findAllValidMovesH h board).1 = findAllValidMoves (snapshot h board).
Proof.
  intros Hshaped Hvalid. split; [|by apply findAllValidMovesH_moves].
  pose proof (snapshot_workingCopy h board block Hshaped Hvalid) as Hsnap.
  by destruct (copyBoard h board) as [tempBoard h1].
Qed.

(** ** Instances *)

Lemma lineBoard_shaped : shaped lineBoard.
Proof. apply shaped_dec. vm_compute. reflexivity. Qed.

Lemma validateBoard_outcomes_witness :
  (validateBoard lineBoard = Some MalformedShape ↔ ¬ shaped lineBoard)
  ∧ (validateBoard lineBoard = Some WrongBlockCount
     ↔ shaped lineBoard ∧ size (blockSet lineBoard) ≠ BLOCK_COUNT)
  ∧ (validateBoard lineBoard = Some Disconnected
     ↔ shaped lineBoard ∧ size (blockSet lineBoard) = BLOCK_COUNT
       ∧ ¬ connected lineBoard)
  ∧ (validateBoard lineBoard = None
     ↔ shaped lineBoard ∧ size (blockSet lineBoard) = BLOCK_COUNT
       ∧ connected lineBoard).
Proof.
  apply (validateBoard_outcomes lineBoard (blockSet lineBoard)).
  apply elem_of_blockSet.
Defined.

Lemma count_start_independent_witness :
  (reach lineBoard (0, 0) (0, 9) →
   countConnectedBlocks lineBoard (Some (0, 0))
   = countConnectedBlocks lineBoard (Some (0, 9)))
  ∧ (validateBoard lineBoard = None →
     countConnectedBlocks lineBoard (Some (0, 0)) = BLOCK_COUNT)
  ∧ (length (findBlocks lineBoard) = BLOCK_COUNT →
     countConnectedBlocks lineBoard (Some (0, 0)) = BLOCK_COUNT →
     validateBoard lineBoard = None).
Proof.
  apply (count_start_independent lineBoard (0, 0) (0, 9)).
  - exact lineBoard_shaped.
  - apply marked_dec. vm_compute. reflexivity.
Defined.

Lemma findBlocks_scan_witness :
  (∀ n, n ∈ findBlocks lineBoard
        ↔ isValidCoord n = true ∧ cellAt lineBoard n = JNum 1)
  ∧ NoDup (findBlocks lineBoard)
  ∧ StronglySorted rowMajorLt (findBlocks lineBoard).
Proof. apply (findBlocks_scan lineBoard). exact lineBoard_shaped. Defined.

Lemma moves_in_scan_order_witness :
  sublist (from <$> findAllValidMoves lineBoard) (findBlocks lineBoard)
  ∧ NoDup (from <$> findAllValidMoves lineBoard)
  ∧ StronglySorted rowMajorLt (from <$> findAllValidMoves lineBoard).
Proof. apply (moves_in_scan_order lineBoard). exact lineBoard_valid. Defined.

Lemma move_iff_remaining_connected_witness :
  (∃ m, m ∈ findAllValidMoves lineBoard ∧ from m = (0, 0))
  ↔ remainingConnected lineBoard (0, 0).
Proof.
  apply (move_iff_remaining_connected lineBoard (0, 0)).
  - exact lineBoard_valid.
  - apply marked_dec. vm_compute. reflexivity.
Defined.

Lemma destinations_exactly_witness :
  NoDup (to lineMove0)
  ∧ ∀ d, d ∈ to lineMove0
         ↔ isValidCoord d = true
           ∧ (d = from lineMove0 ∨ isZero (cellAt lineBoard d) = true)
           ∧ ∃ o, marked lineBoard o ∧ o ≠ from lineMove0 ∧ d ∈ neighbors o.
Proof.
  apply (destinations_exactly lineBoard lineMove0).
  - exact lineBoard_valid.
  - exact lineMove0_enumerated.
Defined.

Lemma valid_board_has_move_witness :
  ∃ m, m ∈ findAllValidMoves lineBoard ∧ findAllValidMoves lineBoard ≠ [].
Proof. apply (valid_board_has_move lineBoard). exact lineBoard_valid. Defined.

Lemma move_reversible_witness :
  ∃ m', m' ∈ findAllValidMoves (relocate lineBoard (from lineMove0) (1, 1))
        ∧ from m' = (1, 1)
        ∧ from lineMove0 ∈ to m'
        ∧ relocate (relocate lineBoard (from lineMove0) (1, 1)) (1, 1)
            (from lineMove0)
          = lineBoard.
Proof.
  apply (move_reversible lineBoard lineMove0 (1, 1)).
  - exact lineBoard_valid.
  - exact lineMove0_enumerated.
  - apply list_elem_of_here.
  - discriminate.
Defined.

Lemma workingCopy_value_witness :
  snapshot (storeIndex (copyBoard sharedRowHeap lineRef).2
              (loadIndex (copyBoard sharedRowHeap lineRef).2
                         (copyBoard sharedRowHeap lineRef).1 1)
              1 (VNum 0))
           (copyBoard sharedRowHeap lineRef).1
  = boardSet (snapshot sharedRowHeap lineRef) (1, 1) (JNum 0)
  ∧ (findAllValidMovesH sharedRowHeap lineRef).1
    = findAllValidMoves (snapshot sharedRowHeap lineRef).
Proof.
  apply (workingCopy_value sharedRowHeap lineRef (1, 1)).
  - apply shaped_dec. vm_compute. reflexivity.
  - reflexivity.
Defined.

Lemma cleanReply_fenced_witness :
  cleanReply (fenceJson ++ sampleBody ++ fence) = trim sampleBody
  ∧ (head sampleBody ≠ Some 106%N →
     cleanReply (fence ++ sampleBody ++ fence) = trim sampleBody)
  ∧ cleanReply sampleBody = trim sampleBody.
Proof.
  apply (cleanReply_fenced sampleBody).
  repeat constructor; discriminate.
Defined.

Lemma drawing_extra_row_witness :
  drawingBoard (JArr (blankDrawing ++ [JNull])) = drawingBoard (JArr blankDrawing)
  ∧ predictBoard (JArr (blankDrawing ++ [JNull])) = None
  ∧ drawingBoard (JArr blankDrawing) = predictBoard (JArr blankDrawing)
  ∧ ∀ board, drawingBoard (JArr (blankDrawing ++ [JNull])) = Some board →
             predictBoard board = Some board ∧ drawingBoard board = Some board.
Proof. apply (drawing_extra_row blankDrawing JNull). reflexivity. Defined.

Lemma visualRows_diagram_witness :
  length (visualRows lineBoard) = Z.to_nat BOARD_SIZE
  ∧ (∀ n, isValidCoord n = true →
          visualRows lineBoard !! Z.to_nat n.1 ≫= (.!! Z.to_nat n.2)
          = Some (if isOne (cellAt lineBoard n) then 35%N else 32%N))
  ∧ length (filter (λ ch, ch = 35%N) (concat (visualRows lineBoard)))
    = length (findBlocks lineBoard).
Proof. apply (visualRows_diagram lineBoard). exact lineBoard_shaped. Defined.
